(** * TreeMultimap: an AVL tree whose nodes carry occurrence counts

    Shallow embedding of [src/data-structures/binary-tree/tree-multimap.ts].
    The class mutates linked node objects; here a tree is a pure value and
    every method is a function from the state before the call to the state
    after it, together with the method's return value.  A node object is
    identified by its position (the path from the root), which is what the
    [parent] back-reference and [familyPosition] encode in the source. *)

From Stdlib Require Import ZArith List Lia Bool Sorted Permutation.
From Stdlib Require SpecFloat.
From Equations Require Import Equations.
Import ListNotations.
Open Scope Z_scope.

Set Implicit Arguments.

(** ** Data model *)

Section Model.

Context {V : Type}.

(** [TreeMultimapNode]: [Absent] stands for an [undefined] child (or root);
    a present node has its two owned children, [key], [value], [count] and
    [height].  Keys are [number]s, ordered by the default numeric
    comparator. *)
Inductive TreeMultimapNode : Type :=
| Absent
| Node (left : TreeMultimapNode) (key : Z) (value : option V)
       (count : Z) (height : Z) (right : TreeMultimapNode).

(** The tree object: [root], [_size] (read through [size]) and the private
    running total [_count]. *)
Record TreeMultimap : Type := mkTree {
  root : TreeMultimapNode;
  size : Z;
  _count : Z
}.

Inductive IterationType : Type := RECURSIVE | ITERATIVE.

(** What [add] accepts: [undefined], [null], a node, a key, a two-element
    entry whose key slot may itself be [null]/[undefined], or anything
    else.  A node exemplar is a node that is not linked into a tree, so it
    is given by its key, value and count. *)
Inductive KeySlot : Type := KeyUndefined | KeyNull | KeyOf (k : Z).

Inductive BTNodeExemplar : Type :=
| ExUndefined
| ExNull
| ExNode (k : Z) (v : option V) (c : Z)
| ExKey (k : Z)
| ExEntry (k : KeySlot) (v : option V)
| ExOther.

(** Position of a node: the child links followed from the root. *)
Inductive Side : Type := LEFT | RIGHT.

Definition Path : Type := list Side.

(** One element of the array returned by [delete]: the payload of the
    [deleted] node object and the position of [needBalanced]. *)
Record BiTreeDeleteResult : Type := mkResult {
  deleted : Z * option V * Z;
  needBalanced : option Path
}.

(** ** Field access *)

Definition key_of (n : TreeMultimapNode) : Z :=
  match n with Absent => 0 | Node _ k _ _ _ _ => k end.

Definition value_of (n : TreeMultimapNode) : option V :=
  match n with Absent => None | Node _ _ v _ _ _ => v end.

Definition count_of (n : TreeMultimapNode) : Z :=
  match n with Absent => 0 | Node _ _ _ c _ _ => c end.

Definition left_of (n : TreeMultimapNode) : TreeMultimapNode :=
  match n with Absent => Absent | Node l _ _ _ _ _ => l end.

Definition right_of (n : TreeMultimapNode) : TreeMultimapNode :=
  match n with Absent => Absent | Node _ _ _ _ _ r => r end.

Definition payload (n : TreeMultimapNode) : Z * option V * Z :=
  (key_of n, value_of n, count_of n).

Definition is_present (n : TreeMultimapNode) : bool :=
  match n with Absent => false | Node _ _ _ _ _ _ => true end.

(** [new TreeMultimapNode(key, value, count)]: no children; the AVL node
    constructor starts [height] at 0. *)
Definition createNode (k : Z) (v : option V) (c : Z) : TreeMultimapNode :=
  Node Absent k v c 0 Absent.

(** ** Traversal (BinaryTree layer) *)

(** Modelled from the spec: [dfs(callback, 'in')] of the BinaryTree class,
    which is not part of the sources at hand.  Spec 4.1: a depth-first
    in-order walk that yields the nodes left subtree first, then the node,
    then the right subtree; the callback is applied to each node. *)
Fixpoint inorder (n : TreeMultimapNode) : list TreeMultimapNode :=
  match n with
  | Absent => []
  | Node l _ _ _ _ r => inorder l ++ n :: inorder r
  end.

Definition dfs {A : Type} (callback : TreeMultimapNode -> A)
    (n : TreeMultimapNode) : list A :=
  map callback (inorder n).

(** Modelled from the spec: [subTreeTraverse] of the BinaryTree class
    (absent from the sources), a full walk of the subtree; used by the
    [count] getter to add up a numeric field. *)
Fixpoint subTreeSum (f : TreeMultimapNode -> Z) (n : TreeMultimapNode) : Z :=
  match n with
  | Absent => 0
  | Node l _ _ _ _ r => f n + subTreeSum f l + subTreeSum f r
  end.

(** [get count()]: recomputed by a traversal on every read. *)
Definition count (t : TreeMultimap) : Z := subTreeSum count_of (root t).

(** Number of nodes reachable from a node. *)
Fixpoint node_number (n : TreeMultimapNode) : Z :=
  match n with
  | Absent => 0
  | Node l _ _ _ _ r => 1 + node_number l + node_number r
  end.

(** The link structure alone: the tree with every payload erased. *)
Inductive Shape : Type := SAbsent | SNode (l r : Shape).

Fixpoint shape (n : TreeMultimapNode) : Shape :=
  match n with
  | Absent => SAbsent
  | Node l _ _ _ _ r => SNode (shape l) (shape r)
  end.

(** ** Paths *)

Fixpoint subtree (p : Path) (n : TreeMultimapNode) : TreeMultimapNode :=
  match p, n with
  | [], _ => n
  | LEFT :: p', Node l _ _ _ _ _ => subtree p' l
  | RIGHT :: p', Node _ _ _ _ _ r => subtree p' r
  | _ :: _, Absent => Absent
  end.

(** Rewrite the node object found at a position, leaving the rest alone. *)
Fixpoint update_at (p : Path) (f : TreeMultimapNode -> TreeMultimapNode)
    (n : TreeMultimapNode) : TreeMultimapNode :=
  match p, n with
  | [], _ => f n
  | LEFT :: p', Node l k v c h r => Node (update_at p' f l) k v c h r
  | RIGHT :: p', Node l k v c h r => Node l k v c h (update_at p' f r)
  | _ :: _, Absent => Absent
  end.

(** ** AVL layer *)

(** Modelled from the spec: the height read off a child link.  Spec 3,
    invariant 2: an empty subtree has height -1, a leaf height 0. *)
Definition height_of (n : TreeMultimapNode) : Z :=
  match n with Absent => -1 | Node _ _ _ _ h _ => h end.

(** Modelled from the spec: a node with its height recomputed from its
    children (invariant 2: one more than the higher child). *)
Definition mkNode (l : TreeMultimapNode) (k : Z) (v : option V) (c : Z)
    (r : TreeMultimapNode) : TreeMultimapNode :=
  Node l k v c (1 + Z.max (height_of l) (height_of r)) r.

(** Modelled from the spec: [_updateHeight] and [_balanceFactor] of the
    AVLTree class (absent from the sources); the balance factor is the
    height of the right subtree minus that of the left one. *)
Definition _updateHeight (n : TreeMultimapNode) : TreeMultimapNode :=
  match n with
  | Absent => Absent
  | Node l k v c _ r => mkNode l k v c r
  end.

Definition _balanceFactor (n : TreeMultimapNode) : Z :=
  match n with
  | Absent => 0
  | Node l _ _ _ _ r => height_of r - height_of l
  end.

(** Modelled from the spec: the single rotations of the AVLTree class
    (absent from the sources); both touched nodes get their heights
    recomputed. *)
Definition rotateRight (n : TreeMultimapNode) : TreeMultimapNode :=
  match n with
  | Node (Node ll lk lv lc _ lr) k v c _ r =>
      mkNode ll lk lv lc (mkNode lr k v c r)
  | _ => n
  end.

Definition rotateLeft (n : TreeMultimapNode) : TreeMultimapNode :=
  match n with
  | Node l k v c _ (Node rl rk rv rc _ rr) =>
      mkNode (mkNode l k v c rl) rk rv rc rr
  | _ => n
  end.

(** Modelled from the spec: the per-node step of [_balancePath] of the
    AVLTree class (absent from the sources).  Spec 4.2: recompute the
    height; if the balance factor exceeds +-1 apply the appropriate
    rotation, single (left/right) or double (left-right/right-left). *)
Definition balanceNode (n : TreeMultimapNode) : TreeMultimapNode :=
  match _updateHeight n with
  | Absent => Absent
  | Node l k v c h r as n' =>
      if _balanceFactor n' <? -1 then
        if _balanceFactor l <=? 0 then rotateRight n'
        else rotateRight (Node (rotateLeft l) k v c h r)
      else if 1 <? _balanceFactor n' then
        if 0 <=? _balanceFactor r then rotateLeft n'
        else rotateLeft (Node l k v c h (rotateRight r))
      else n'
  end.

(** Modelled from the spec: [_balancePath(node)] of the AVLTree class
    (absent from the sources).  Spec 4.2: walk from the point of change up
    to the root, rebalancing at each ancestor in turn, deepest first. *)
Fixpoint _balancePath (p : Path) (n : TreeMultimapNode) : TreeMultimapNode :=
  match p, n with
  | [], _ => balanceNode n
  | LEFT :: p', Node l k v c h r => balanceNode (Node (_balancePath p' l) k v c h r)
  | RIGHT :: p', Node l k v c h r => balanceNode (Node l k v c h (_balancePath p' r))
  | _ :: _, Absent => Absent
  end.

(** Modelled from the spec: [isAVLBalanced()] of the AVLTree layer (absent
    from the sources).  Spec 4.2: a diagnostic full-tree scan, independent
    of the maintained [height] fields, confirming that at every node the
    heights of the two subtrees differ by at most 1. *)
Fixpoint real_height (n : TreeMultimapNode) : Z :=
  match n with
  | Absent => -1
  | Node l _ _ _ _ r => 1 + Z.max (real_height l) (real_height r)
  end.

Fixpoint isAVLBalancedFrom (n : TreeMultimapNode) : bool :=
  match n with
  | Absent => true
  | Node l _ _ _ _ r =>
      (Z.abs (real_height l - real_height r) <=? 1)
      && isAVLBalancedFrom l && isAVLBalancedFrom r
  end.

Definition isAVLBalanced (t : TreeMultimap) : bool := isAVLBalancedFrom (root t).

(** ** [_replaceNode] *)

(** Modelled from the spec: [super._replaceNode] (AVLTree/BinaryTree,
    absent from the sources): the new node object takes the old one's
    place in the tree, that is its children and height, keeping its own
    key, value and count. *)
Definition super_replaceNode (oldNode newNode : TreeMultimapNode) : TreeMultimapNode :=
  match oldNode, newNode with
  | Node l _ _ _ h r, Node _ k v c _ _ => Node l k v c h r
  | _, _ => newNode
  end.

Definition set_count (c : Z) (n : TreeMultimapNode) : TreeMultimapNode :=
  match n with
  | Absent => Absent
  | Node l k v _ h r => Node l k v c h r
  end.

(** The counts are JavaScript numbers, that is IEEE 754 binary64 values,
    and the ones a tree is given are integers.  [roundNumber z] is the
    number nearest to the integer [z]: [z] itself up to 2^53, beyond that
    [z] rounded to 53 significant bits, a tie going to the even
    significand.  (From 2^1024 on a number is [Infinity], which the
    integers of this development do not have.) *)
Definition roundNumber (z : Z) : Z :=
  if Z.abs z <=? 2 ^ 53 then z
  else
    let e := Z.log2 (Z.abs z) - 52 in
    let q := Z.abs z / 2 ^ e in
    let r := Z.abs z mod 2 ^ e in
    let half := 2 ^ (e - 1) in
    Z.sgn z * ((if r <? half then q
                else if half <? r then q + 1
                else if Z.even q then q else q + 1) * 2 ^ e).

(** [a + b] on two numbers: the exact sum, rounded once. *)
Definition numAdd (a b : Z) : Z := roundNumber (a + b).

(** [_replaceNode(oldNode, newNode)]: the counts are added up on the new
    node ([oldNode.count + newNode.count]) before the superclass relinks
    it. *)
Definition _replaceNode (oldNode newNode : TreeMultimapNode) : TreeMultimapNode :=
  super_replaceNode oldNode
    (set_count (numAdd (count_of oldNode) (count_of newNode)) newNode).

(** ** [add] *)

(** Modelled from the spec: [super.add(newNode)] (AVLTree.add over BST.add,
    absent from the sources).  Spec 4.1/4.3: descend with the comparator;
    a node with the same key is handed to [_replaceNode] with no
    structural change and no rebalancing; otherwise the new node is linked
    at the leaf position and every ancestor is rebalanced on the way back
    to the root.  The second component is the old node that was replaced,
    if any; [None] means that a node was created. *)
Fixpoint insertNode (newNode n : TreeMultimapNode)
    : TreeMultimapNode * option TreeMultimapNode :=
  match n with
  | Absent => (newNode, None)
  | Node l k v c h r =>
      match key_of newNode ?= k with
      | Eq => (_replaceNode n newNode, Some n)
      | Lt =>
          let (l', replaced) := insertNode newNode l in
          let n' := Node l' k v c h r in
          (match replaced with None => balanceNode n' | Some _ => n' end, replaced)
      | Gt =>
          let (r', replaced) := insertNode newNode r in
          let n' := Node l k v c h r' in
          (match replaced with None => balanceNode n' | Some _ => n' end, replaced)
      end
  end.

(** Modelled from the spec: the superclass [add] as seen from TreeMultimap:
    [_size] grows by one exactly when a node is created, [_count] is not
    touched, and the inserted (or replacing) node is returned. *)
Definition super_add (newNode : TreeMultimapNode) (t : TreeMultimap)
    : TreeMultimap * option (Z * option V * Z) :=
  let (r', replaced) := insertNode newNode (root t) in
  match replaced with
  | None => (mkTree r' (size t + 1) (_count t), Some (payload newNode))
  | Some oldNode =>
      (mkTree r' (size t) (_count t), Some (payload (_replaceNode oldNode newNode)))
  end.

(** [add(keyOrNodeOrEntry, count = 1)]: the first part turns the exemplar
    into the node to insert, or returns early with [undefined]; the second
    runs [super.add] and, when that inserted, [this._count += orgNodeCount]
    with the count read before the insertion. *)
Definition exemplarToNode (keyOrNodeOrEntry : BTNodeExemplar) (count : Z)
    : option TreeMultimapNode :=
  match keyOrNodeOrEntry with
  | ExUndefined | ExNull => None
  | ExNode k v c => Some (createNode k v c)
  | ExKey k => Some (createNode k None count)
  | ExEntry KeyUndefined _ | ExEntry KeyNull _ => None
  | ExEntry (KeyOf k) v => Some (createNode k v count)
  | ExOther => None
  end.

Definition add (keyOrNodeOrEntry : BTNodeExemplar) (count : Z) (t : TreeMultimap)
    : TreeMultimap * option (Z * option V * Z) :=
  match exemplarToNode keyOrNodeOrEntry count with
  | None => (t, None)
  | Some newNode =>
      let orgNodeCount := count_of newNode in
      match super_add newNode t with
      | (t', Some inserted) =>
          (mkTree (root t') (size t') (numAdd (_count t') orgNodeCount), Some inserted)
      | (t', None) => (t', None)
      end
  end.

(** Modelled from the spec: [super.addMany] (absent from the sources).
    Spec 6: one [add] per element, with the default count, the results in
    the order of the input. *)
Fixpoint addMany (keysOrNodesOrEntries : list BTNodeExemplar) (t : TreeMultimap)
    : TreeMultimap * list (option (Z * option V * Z)) :=
  match keysOrNodesOrEntries with
  | [] => (t, [])
  | e :: es =>
      let (t1, r) := add e 1 t in
      let (t2, rs) := addMany es t1 in
      (t2, r :: rs)
  end.

(** Modelled from the spec: [super.clear()] (BinaryTree, absent from the
    sources).  Spec 3: the whole tree is discarded and [size] reset. *)
Definition super_clear (t : TreeMultimap) : TreeMultimap :=
  mkTree Absent 0 (_count t).

(** [clear()]: [super.clear()], then [this._count = 0]. *)
Definition clear (t : TreeMultimap) : TreeMultimap :=
  let t' := super_clear t in
  mkTree (root t') (size t') 0.

(** ** [delete] *)

(** How [delete] is told which node to look for: the default callback
    compares the node's key with the identifier; any other callback [c]
    with identifier [i] is the test [c(node) === i] on a node. *)
Inductive Identifier : Type :=
| ByKey (identifier : Z)
| ByCallback (matches : TreeMultimapNode -> bool).

Definition matchesNode (i : Identifier) (n : TreeMultimapNode) : bool :=
  match i with
  | ByKey k => key_of n =? k
  | ByCallback f => f n
  end.

(** Modelled from the spec: [getNode(identifier, callback)] of the BST
    class (absent from the sources).  Spec 4.1: for the key, descend with
    the comparator; for any other callback, fall back to a full traversal
    and take the first node that matches.  The result is the position of
    the node found. *)
Fixpoint getNodeByKey (k : Z) (n : TreeMultimapNode) : option Path :=
  match n with
  | Absent => None
  | Node l k' _ _ _ r =>
      match k ?= k' with
      | Eq => Some []
      | Lt => option_map (cons LEFT) (getNodeByKey k l)
      | Gt => option_map (cons RIGHT) (getNodeByKey k r)
      end
  end.

Fixpoint getNodeByCallback (f : TreeMultimapNode -> bool) (n : TreeMultimapNode)
    : option Path :=
  match n with
  | Absent => None
  | Node l _ _ _ _ r =>
      if f n then Some []
      else match getNodeByCallback f l with
           | Some p => Some (LEFT :: p)
           | None => option_map (cons RIGHT) (getNodeByCallback f r)
           end
  end.

Definition getNode (i : Identifier) (n : TreeMultimapNode) : option Path :=
  match i with
  | ByKey k => getNodeByKey k n
  | ByCallback f => getNodeByCallback f n
  end.

(** Modelled from the spec: [getRightMost(node)] of the BinaryTree class
    (absent from the sources).  Spec 4.1: the extreme-value walk along the
    right links; the result is the position relative to the start. *)
Fixpoint getRightMost (n : TreeMultimapNode) : Path :=
  match n with
  | Node _ _ _ _ _ (Node _ _ _ _ _ _ as r) => RIGHT :: getRightMost r
  | _ => []
  end.

(** [curr.parent] and [curr.familyPosition]: the position of the parent
    and the side on which [curr] hangs; [None] for the root. *)
Fixpoint parentOf (p : Path) : option (Path * Side) :=
  match p with
  | [] => None
  | s :: p' =>
      match parentOf p' with
      | None => Some ([], s)
      | Some (pp, s') => Some (s :: pp, s')
      end
  end.

(** [parent.left = x] and [parent.right = x]. *)
Definition setChild (s : Side) (x n : TreeMultimapNode) : TreeMultimapNode :=
  match n, s with
  | Absent, _ => Absent
  | Node _ k v c h r, LEFT => Node x k v c h r
  | Node l k v c h _, RIGHT => Node l k v c h x
  end.

(** [_swapProperties(srcNode, destNode)]: key, value, count and height
    trade places, the links stay; the pair is the two node objects after
    the swap, the second one being the returned [destNode]. *)
Definition _swapProperties (srcNode destNode : TreeMultimapNode)
    : TreeMultimapNode * TreeMultimapNode :=
  match srcNode, destNode with
  | Node sl sk sv sc sh sr, Node dl dk dv dc dh dr =>
      (Node sl dk dv dc dh sr, Node dl sk sv sc sh dr)
  | _, _ => (srcNode, destNode)
  end.

(** The structural branch of [delete] ([else] of the count test): the new
    root, the node object [orgCurrent] and [needBalanced]. *)
Definition spliceOut (p : Path) (rt : TreeMultimapNode)
    : TreeMultimapNode * TreeMultimapNode * option Path :=
  let curr := subtree p rt in
  match left_of curr with
  | Absent =>
      match parentOf p with
      | None =>
          (if is_present (right_of curr) then right_of curr else rt, curr, None)
      | Some (pp, fp) =>
          (update_at pp (setChild fp (right_of curr)) rt, curr, Some pp)
      end
  | Node _ _ _ _ _ _ as cl =>
      let q := p ++ LEFT :: getRightMost cl in
      let leftSubTreeRightMost := subtree q rt in
      let swapped := _swapProperties curr leftSubTreeRightMost in
      let orgCurrent := snd swapped in
      let rt1 := update_at p (fun c => fst (_swapProperties c leftSubTreeRightMost)) rt in
      let rt2 := update_at q (fun d => snd (_swapProperties curr d)) rt1 in
      match parentOf q with
      | Some (pq, s) =>
          (update_at pq (setChild s (left_of leftSubTreeRightMost)) rt2,
           orgCurrent, Some pq)
      | None => (rt2, orgCurrent, None)
      end
  end.

Definition delete (i : Identifier) (ignoreCount : bool) (t : TreeMultimap)
    : TreeMultimap * list BiTreeDeleteResult :=
  match root t with
  | Absent => (t, [])
  | Node _ _ _ _ _ _ =>
      match getNode i (root t) with
      | None => (t, [])
      | Some p =>
          let curr := subtree p (root t) in
          if (1 <? count_of curr) && negb ignoreCount then
            let rt := update_at p (set_count (count_of curr - 1)) (root t) in
            (mkTree rt (size t) (_count t - 1),
             [mkResult (payload (subtree p rt)) None])
          else
            let '(rt, orgCurrent, needBalanced) := spliceOut p (root t) in
            let rt' :=
              match needBalanced with
              | Some pb => _balancePath pb rt
              | None => rt
              end in
            (mkTree rt' (size t - 1) (_count t - count_of orgCurrent),
             [mkResult (payload orgCurrent) needBalanced])
      end
  end.

End Model.

Arguments Absent {V}.
Arguments TreeMultimapNode : clear implicits.
Arguments TreeMultimap : clear implicits.
Arguments BTNodeExemplar : clear implicits.
Arguments BiTreeDeleteResult : clear implicits.
Arguments Identifier : clear implicits.

(** ** [_addTo] *)

(** [_addTo(newNode, parent)].  [newNode] is a node or [undefined]
    ([Absent]); [parent] stands for what [this.ensureNode(parent)] returns:
    the position of a node of the tree, or nothing.  The left slot is
    tried first, then the right one; the second component is the returned
    [parent.left] or [parent.right] ([Absent] for [undefined]). *)
Definition _addTo {V : Type} (newNode : TreeMultimapNode V) (parent : option Path)
    (t : TreeMultimap V) : TreeMultimap V * TreeMultimapNode V :=
  match parent with
  | None => (t, Absent)
  | Some p =>
      match subtree p (root t) with
      | Absent => (t, Absent)
      | Node Absent _ _ _ _ _ =>
          let rt := update_at p (setChild LEFT newNode) (root t) in
          (if is_present newNode
           then mkTree rt (size t + 1) (_count t + count_of newNode)
           else mkTree rt (size t) (_count t),
           newNode)
      | Node (Node _ _ _ _ _ _) _ _ _ _ Absent =>
          let rt := update_at p (setChild RIGHT newNode) (root t) in
          (if is_present newNode
           then mkTree rt (size t + 1) (_count t + count_of newNode)
           else mkTree rt (size t) (_count t),
           newNode)
      | Node (Node _ _ _ _ _ _) _ _ _ _ (Node _ _ _ _ _ _) => (t, Absent)
      end
  end.

(** ** [perfectlyBalance] *)

(** The two rebuild loops only talk to the tree through
    [this.add([midNode.key, midNode.value], midNode.count)]; they are
    written once over what that call does to the state, so that the same
    code can be run on the tree and on a log of the calls made. *)

(** [sorted[m]]: [undefined] outside the array. *)
Definition at_index {V : Type} (sorted : list (TreeMultimapNode V)) (m : Z)
    : option (TreeMultimapNode V) :=
  if m <? 0 then None else nth_error sorted (Z.to_nat m).

Definition addMid {V State : Type} (addEntry : Z -> option V -> Z -> State -> State)
    (midNode : TreeMultimapNode V) (st : State) : State :=
  addEntry (key_of midNode) (value_of midNode) (count_of midNode) st.

(** [const m = l + Math.floor((r - l) / 2)]. *)
Definition midpoint (l r : Z) : Z := l + (r - l) / 2.

(** Number of indices in the range [[l, r]]: what both loops consume. *)
Definition span (l r : Z) : nat := Z.to_nat (r - l + 1).

(** The recursive closure [buildBalanceBST(l, r)].  [None] stands for the
    TypeError raised when [sorted[m]] is [undefined]. *)
Equations buildBalanceBST {V State : Type}
    (addEntry : Z -> option V -> Z -> State -> State)
    (sorted : list (TreeMultimapNode V)) (l r : Z) (st : State) : option State
  by wf (span l r) lt :=
  buildBalanceBST addEntry sorted l r st with Z_gt_dec l r := {
    | left _ => Some st
    | right _ with at_index sorted (midpoint l r) := {
        | None => None
        | Some midNode
            with buildBalanceBST addEntry sorted l (midpoint l r - 1)
                   (addMid addEntry midNode st) := {
            | None => None
            | Some st' =>
                buildBalanceBST addEntry sorted (midpoint l r + 1) r st' } } }.
Next Obligation. unfold span, midpoint. Z.div_mod_to_equations. lia. Qed.
Next Obligation. unfold span, midpoint. Z.div_mod_to_equations. lia. Qed.

(** The explicit stack of [[l, r]] ranges; the head of the list is the
    top of the stack ([pop] takes it, [push] adds in front). *)
Definition rangeWeight (lr : Z * Z) : nat := S (2 * span (fst lr) (snd lr)).

Definition stackWeight (stack : list (Z * Z)) : nat :=
  list_sum (map rangeWeight stack).

(** The [while (stack.length > 0)] loop of the iterative branch. *)
Equations buildLoop {V State : Type}
    (addEntry : Z -> option V -> Z -> State -> State)
    (sorted : list (TreeMultimapNode V)) (stack : list (Z * Z)) (st : State)
    : option State
  by wf (stackWeight stack) lt :=
  buildLoop addEntry sorted [] st := Some st;
  buildLoop addEntry sorted ((l, r) :: stack) st with Z_le_dec l r := {
    | left _ with at_index sorted (midpoint l r) := {
        | None => None
        | Some midNode =>
            buildLoop addEntry sorted
              ((l, midpoint l r - 1) :: (midpoint l r + 1, r) :: stack)
              (addMid addEntry midNode st) }
    | right _ => buildLoop addEntry sorted stack st }.
Next Obligation.
  unfold stackWeight, rangeWeight, span, midpoint. simpl.
  Z.div_mod_to_equations. lia.
Qed.
Next Obligation. unfold stackWeight, rangeWeight. simpl. lia. Qed.

(** [this.add([key, value], count)] as a change of the tree. *)
Definition addEntryToTree {V : Type} (k : Z) (v : option V) (c : Z)
    (t : TreeMultimap V) : TreeMultimap V :=
  fst (add (ExEntry (KeyOf k) v) c t).

(** [perfectlyBalance(iterationType)].  The result is [None] if the
    rebuild stops on a TypeError. *)
Definition perfectlyBalance {V : Type} (iterationType : IterationType)
    (t : TreeMultimap V) : option (TreeMultimap V * bool) :=
  let sorted := dfs (fun node => node) (root t) in
  let n := Z.of_nat (length sorted) in
  if n <? 1 then Some (t, false)
  else
    let t0 := clear t in
    match iterationType with
    | RECURSIVE =>
        option_map (fun t' => (t', true))
          (buildBalanceBST addEntryToTree sorted 0 (n - 1) t0)
    | ITERATIVE =>
        option_map (fun t' => (t', true))
          (buildLoop addEntryToTree sorted [(0, n - 1)] t0)
    end.

(** The [add] calls a rebuild makes, in the order it makes them: the same
    loops run on a log instead of a tree. *)
Definition logEntry {V : Type} (k : Z) (v : option V) (c : Z)
    (log : list (Z * option V * Z)) : list (Z * option V * Z) :=
  log ++ [(k, v, c)].

Definition addCalls {V : Type} (iterationType : IterationType)
    (t : TreeMultimap V) : option (list (Z * option V * Z)) :=
  let sorted := dfs (fun node => node) (root t) in
  let n := Z.of_nat (length sorted) in
  if n <? 1 then Some []
  else
    match iterationType with
    | RECURSIVE => buildBalanceBST logEntry sorted 0 (n - 1) []
    | ITERATIVE => buildLoop logEntry sorted [(0, n - 1)] []
    end.


(** The rebuild order in the words of the specification (4.3): the median
    element of the index range first, then the left half, then the right
    half: a pre-order walk of the tree of ranges. *)
Equations medianPreorder {V : Type} (sorted : list (TreeMultimapNode V)) (l r : Z)
    : list (TreeMultimapNode V)
  by wf (span l r) lt :=
  medianPreorder sorted l r with Z_gt_dec l r := {
    | left _ => []
    | right _ with at_index sorted (midpoint l r) := {
        | None => []
        | Some midNode =>
            midNode :: medianPreorder sorted l (midpoint l r - 1)
                    ++ medianPreorder sorted (midpoint l r + 1) r } }.
Next Obligation. unfold span, midpoint. Z.div_mod_to_equations. lia. Qed.
Next Obligation. unfold span, midpoint. Z.div_mod_to_equations. lia. Qed.

(** Replaying a list of nodes through [add], one call per node. *)
Definition replay {V State : Type} (addEntry : Z -> option V -> Z -> State -> State)
    (nodes : list (TreeMultimapNode V)) (st : State) : State :=
  fold_left (fun s midNode => addMid addEntry midNode s) nodes st.

(** ** Invariants of section 3 of the specification *)

(** The in-order sequence of payloads, [(key, value, count)]. *)
Definition elements {V : Type} (n : TreeMultimapNode V) : list (Z * option V * Z) :=
  dfs payload n.

(** Invariant 1 as the in-order walk sees it: strictly increasing keys. *)
Definition inOrderIncreasing {V : Type} (n : TreeMultimapNode V) : Prop :=
  StronglySorted Z.lt (dfs key_of n).

(** Invariant 2 on the maintained [height] fields. *)
Fixpoint avlInvariant {V : Type} (n : TreeMultimapNode V) : Prop :=
  match n with
  | Absent => True
  | Node l _ _ _ h r =>
      avlInvariant l /\ avlInvariant r /\
      h = 1 + Z.max (height_of l) (height_of r) /\
      -1 <= height_of r - height_of l <= 1
  end.

(** What one [add] does to the in-order sequence, in the words of the
    specification (4.3): a key that is there gets the amount added to its
    count (a sum of two numbers, [numAdd]), a new key takes its place in
    the order. *)
Fixpoint insertPayload {V : Type} (x : Z * option V * Z)
    (xs : list (Z * option V * Z)) : list (Z * option V * Z) :=
  match xs with
  | [] => [x]
  | y :: ys =>
      match fst (fst x) ?= fst (fst y) with
      | Lt => x :: y :: ys
      | Eq => (fst (fst x), snd (fst x), numAdd (snd y) (snd x)) :: ys
      | Gt => y :: insertPayload x ys
      end
  end.

(** The array [sorted] of [perfectlyBalance] and the index of its last
    element. *)
Definition sortedNodes {V : Type} (t : TreeMultimap V) : list (TreeMultimapNode V) :=
  dfs (fun node => node) (root t).

Definition lastIndex {V : Type} (t : TreeMultimap V) : Z :=
  Z.of_nat (length (sortedNodes t)) - 1.

(** A range that stays inside the array. *)
Definition inBounds {V : Type} (sorted : list (TreeMultimapNode V)) (lr : Z * Z) : Prop :=
  0 <= fst lr /\ snd lr < Z.of_nat (length sorted).

(** The keys of a sequence of payloads, and a run of insertions. *)
Definition keysOf {V : Type} (xs : list (Z * option V * Z)) : list Z :=
  map (fun x => fst (fst x)) xs.

Definition insertAll {V : Type} (xs ys : list (Z * option V * Z))
    : list (Z * option V * Z) :=
  fold_left (fun acc x => insertPayload x acc) xs ys.

(** Invariant 4: [size] is the number of nodes, and the private [_count]
    agrees with the sum that the [count] getter computes. *)
Definition bookkeeping {V : Type} (t : TreeMultimap V) : Prop :=
  size t = node_number (root t) /\ _count t = count t.

(** The magnitudes of the counts of all the nodes, added up. *)
Definition countMagnitude {V : Type} (n : TreeMultimapNode V) : Z :=
  subTreeSum (fun m => Z.abs (count_of m)) n.

(** The sums that [add] with [amount] gives rise to on [t] are exact
    numbers: the counts of the tree together with the amount, and
    [_count] together with the amount, stay within 2^53 in magnitude, the
    range in which every integer is a number.  Then neither the new count
    of a node, nor [_count], nor any partial sum that the [count] getter
    runs through is rounded. *)
Definition exactlyRepresentable {V : Type} (amount : Z) (t : TreeMultimap V) : Prop :=
  countMagnitude (root t) + Z.abs amount <= 2 ^ 53 /\
  Z.abs (_count t) + Z.abs amount <= 2 ^ 53.

Fixpoint sumCounts {V : Type} (xs : list (Z * option V * Z)) : Z :=
  match xs with
  | [] => 0
  | x :: xs' => snd x + sumCounts xs'
  end.

(** One element taken out of a sequence, the others left in their order. *)
Definition dropsOne {A : Type} (x : A) (before after : list A) : Prop :=
  exists front back, before = front ++ x :: back /\ after = front ++ back.

(** ** Sample trees *)

Definition emptyTree : TreeMultimap Z := mkTree Absent 0 0.

Definition onlyFive : TreeMultimap Z := fst (add (ExKey 5) 1 emptyTree).

Definition smallTree : TreeMultimap Z :=
  fst (addMany [ExKey 2; ExKey 1; ExKey 3; ExKey 3] emptyTree).

Definition sampleTree : TreeMultimap Z :=
  fst (addMany (map (fun k => ExKey k) [11; 3; 15; 1; 8; 13; 16; 2; 6; 9; 12; 14; 4; 7; 10; 5; 5])
               emptyTree).

(** ** UndirectedGraph ([src/data-structures/graph/undirected-graph.ts]) *)

Definition VertexId : Type := Z.

(** What UndirectedGraph uses of its base class AbstractGraph, which is
    not among the sources: the vertex objects the graph stores (keys of the
    [_edges] map, told apart by identity), the [id] field of a vertex, and
    [_getVertex], of which nothing is assumed but that it answers with a
    stored vertex or [null].  Vertices are referred to by their ids. *)
Record AbstractGraph : Type := mkGraphBase {
  Vertex : Type;
  sameVertex : Vertex -> Vertex -> bool;
  vertexId : Vertex -> VertexId;
  _getVertex : VertexId -> option Vertex
}.

(** [UndirectedEdge]: the pair [vertices], [weight] and [val]. *)
Record UndirectedEdge (E : Type) : Type := mkEdge {
  vertices : VertexId * VertexId;
  weight : Z;
  val : option E
}.

(** [_createEdge(src, dest, weight, val)]: a missing weight becomes 1. *)
Definition _createEdge {E : Type} (src dest : VertexId) (w : option Z)
    (v : option E) : UndirectedEdge E :=
  mkEdge (src, dest) (match w with Some x => x | None => 1 end) v.

(** [e.vertices.includes(id)]. *)
Definition includes {E : Type} (e : UndirectedEdge E) (id : VertexId) : bool :=
  (fst (vertices e) =? id) || (snd (vertices e) =? id).

Section UndirectedGraphModel.

Variable G : AbstractGraph.
Variable E : Type.

(** [_edges]: a [Map] from vertex to array of edges, in insertion order. *)
Definition EdgeMap : Type := list (Vertex G * list (UndirectedEdge E)).

(** [this._edges.get(vertex)]. *)
Fixpoint mapGet (v : Vertex G) (m : EdgeMap) : option (list (UndirectedEdge E)) :=
  match m with
  | [] => None
  | (k, es) :: m' => if sameVertex G k v then Some es else mapGet v m'
  end.

(** [edges.push(edge)] on the array stored under the vertex, or
    [this._edges.set(vertex, [edge])] when there is none. *)
Fixpoint mapPush (v : Vertex G) (e : UndirectedEdge E) (m : EdgeMap) : EdgeMap :=
  match m with
  | [] => [(v, [e])]
  | (k, es) :: m' =>
      if sameVertex G k v then (k, es ++ [e]) :: m' else (k, es) :: mapPush v e m'
  end.

(** [getEdge(v1, v2)]; [None] in an argument is [null], in the result
    [null]. *)
Definition getEdge (v1 v2 : option VertexId) (m : EdgeMap)
    : option (UndirectedEdge E) :=
  match v1, v2 with
  | Some a, Some b =>
      match _getVertex G a, _getVertex G b with
      | Some vertex1, Some vertex2 =>
          match mapGet vertex1 m with
          | Some es => hd_error (filter (fun e => includes e (vertexId G vertex2)) es)
          | None => None
          end
      | _, _ => None
      end
  | _, _ => None
  end.

(** [addEdge(edge)]: the loop over the two ends, with its early
    [return false]. *)
Definition addEdge (edge : UndirectedEdge E) (m : EdgeMap) : EdgeMap * bool :=
  match _getVertex G (fst (vertices edge)) with
  | None => (m, false)
  | Some end1 =>
      let m1 := mapPush end1 edge m in
      match _getVertex G (snd (vertices edge)) with
      | None => (m1, false)
      | Some end2 => (mapPush end2 edge m1, true)
      end
  end.

(** [edgesOf(vertexOrId)] and [getEdgesOf(vertexOrId)]. *)
Definition edgesOf (vertexOrId : VertexId) (m : EdgeMap) : list (UndirectedEdge E) :=
  match _getVertex G vertexOrId with
  | Some vertex =>
      match mapGet vertex m with
      | Some es => es
      | None => []
      end
  | None => []
  end.

Definition getEdgesOf (vertexOrId : VertexId) (m : EdgeMap) : list (UndirectedEdge E) :=
  match _getVertex G vertexOrId with
  | None => []
  | Some vertex =>
      match mapGet vertex m with
      | Some es => es
      | None => []
      end
  end.

(** [degreeOf(vertexOrId)]. *)
Definition degreeOf (vertexOrId : VertexId) (m : EdgeMap) : Z :=
  match _getVertex G vertexOrId with
  | Some vertex =>
      match mapGet vertex m with
      | Some es => Z.of_nat (length es)
      | None => 0
      end
  | None => 0
  end.

(** Identity of vertex objects: [sameVertex] tells equal from different. *)
Definition decidesIdentity : Prop :=
  forall a b : Vertex G, sameVertex G a b = true <-> a = b.

(** The lengths of all the arrays of [_edges], added up. *)
Definition totalDegree (m : EdgeMap) : Z :=
  fold_right (fun kv acc => Z.of_nat (length (snd kv)) + acc) 0 m.

End UndirectedGraphModel.

(** A graph on the vertices 1, 2 and 3, each stored under its id. *)
Definition threeVertices : AbstractGraph :=
  mkGraphBase Z.eqb (fun v => v)
    (fun id => if (1 <=? id) && (id <=? 3) then Some id else None).

(** The keys 1, 2, 3 of [smallTree] hung as a chain, with stale [size]
    and [_count]. *)
Definition chainTree : TreeMultimap Z :=
  mkTree (Node Absent 1 None 1 0
            (Node Absent 2 None 1 0 (Node Absent 3 None 2 0 Absent)))
         7 9.

Definition edge12 : UndirectedEdge unit := mkEdge (1, 2) 1 None.

Definition noEdges : EdgeMap threeVertices unit := [].

(** ** [numAdd] beside the Standard Library's IEEE 754 addition *)

(** An integer as a binary64 value of [SpecFloat]: 53 bits of precision,
    exponents below 1024. *)
Definition binary64 (z : Z) : SpecFloat.spec_float :=
  SpecFloat.binary_normalize 53 1024 z 0 false.

Definition sameNumber (x y : SpecFloat.spec_float) : bool :=
  match x, y with
  | SpecFloat.S754_zero _, SpecFloat.S754_zero _ => true
  | SpecFloat.S754_finite s m e, SpecFloat.S754_finite s' m' e' =>
      Bool.eqb s s' && Pos.eqb m m' && Z.eqb e e'
  | _, _ => false
  end.

(** [numAdd] on the numbers nearest to [a] and [b] gives what
    [SpecFloat.SFadd] gives on them. *)
Definition numAddIsBinary64 (a b : Z) : bool :=
  let x := roundNumber a in
  let y := roundNumber b in
  sameNumber (SpecFloat.SFadd 53 1024 (binary64 x) (binary64 y))
             (binary64 (numAdd x y)).

Fixpoint consecutive (n : nat) (first : Z) : list Z :=
  match n with
  | O => []
  | S n' => first :: consecutive n' (first + 1)
  end.

(** Operands around the powers of two at which the spacing of the numbers
    changes, of both signs, and some far apart. *)
Definition roundingSamples : list (Z * Z) :=
  list_prod (map (fun x => x + 2 ^ 53 - 30) (consecutive 60 0)
             ++ map (fun x => 2 * x + 2 ^ 54 - 30) (consecutive 40 0)
             ++ map (fun x => - (2 * x + 2 ^ 54 - 30)) (consecutive 40 0)
             ++ [2 ^ 53; - 2 ^ 53; 2 ^ 60 + 2 ^ 10; 2 ^ 100; 2 ^ 1000])
            (consecutive 80 (-40) ++ [2 ^ 53; - 2 ^ 53; 2 ^ 7 + 2 ^ 60; 2 ^ 1000]).

(** * Properties *)

Section Facts.

Context {V : Type}.

Implicit Types (n m l r : TreeMultimapNode V) (t : TreeMultimap V) (p q : Path).

(** ** Paths and traversals *)

Lemma subtree_Absent p : subtree p (@Absent V) = Absent.
Proof. destruct p as [|[] p]; reflexivity. Qed.

Lemma subtree_app p q n : subtree (p ++ q) n = subtree q (subtree p n).
Proof.
  revert n; induction p as [|s p IH]; intros n; simpl; [reflexivity|].
  destruct s, n; simpl; auto using subtree_Absent.
Qed.

Lemma subtree_In p n :
  is_present (subtree p n) = true -> In (subtree p n) (inorder n).
Proof.
  revert n; induction p as [|s p IH]; intros n H.
  - destruct n; simpl in *; [discriminate|].
    apply in_or_app; right; left; reflexivity.
  - destruct n; [rewrite subtree_Absent in H; discriminate|].
    destruct s; simpl in *; apply in_or_app.
    + left; auto.
    + right; right; auto.
Qed.

Lemma subtree_update_at p f n :
  is_present (subtree p n) = true ->
  subtree p (update_at p f n) = f (subtree p n).
Proof.
  revert n; induction p as [|s p IH]; intros n H; simpl; [reflexivity|].
  destruct n; [rewrite subtree_Absent in H; discriminate|].
  destruct s; simpl in *; auto.
Qed.

Lemma getNodeByKey_sound k n p :
  getNodeByKey k n = Some p ->
  is_present (subtree p n) = true /\ key_of (subtree p n) = k.
Proof.
  revert p; induction n as [|l IHl k' v c h r IHr]; intros p H; simpl in H.
  - discriminate.
  - destruct (Z.compare_spec k k') as [E|E|E].
    + inversion H; subst; simpl; auto.
    + destruct (getNodeByKey k l) as [p'|]; [|discriminate].
      inversion H; subst; simpl; auto.
    + destruct (getNodeByKey k r) as [p'|]; [|discriminate].
      inversion H; subst; simpl; auto.
Qed.

Lemma getNodeByCallback_sound f n p :
  getNodeByCallback f n = Some p ->
  is_present (subtree p n) = true /\ f (subtree p n) = true.
Proof.
  revert p; induction n as [|l IHl k' v c h r IHr]; intros p H; simpl in H.
  - discriminate.
  - destruct (f (Node l k' v c h r)) eqn:E.
    + inversion H; subst; simpl; auto.
    + destruct (getNodeByCallback f l) as [p'|].
      * inversion H; subst; simpl; auto.
      * destruct (getNodeByCallback f r) as [p'|]; [|discriminate].
        inversion H; subst; simpl; auto.
Qed.

Lemma getNode_sound i n p :
  getNode i n = Some p ->
  is_present (subtree p n) = true /\ matchesNode i (subtree p n) = true.
Proof.
  destruct i as [k|f]; simpl; intros H.
  - apply getNodeByKey_sound in H as [H1 H2]; split; [assumption|].
    now apply Z.eqb_eq.
  - now apply getNodeByCallback_sound.
Qed.


(** ** Rewriting the count of one node *)

Lemma shape_set_count p c n : shape (update_at p (set_count c) n) = shape n.
Proof.
  revert n; induction p as [|s p IH]; intros n.
  - destruct n; reflexivity.
  - destruct s, n; simpl; try reflexivity; now rewrite IH.
Qed.

Lemma subTreeSum_set_count p c n :
  is_present (subtree p n) = true ->
  subTreeSum count_of (update_at p (set_count c) n)
  = subTreeSum count_of n - count_of (subtree p n) + c.
Proof.
  revert n; induction p as [|s p IH]; intros n H.
  - destruct n; simpl in *; [discriminate|lia].
  - destruct n; [rewrite subtree_Absent in H; discriminate|].
    destruct s; simpl in *; rewrite IH by assumption; lia.
Qed.

Lemma dfs_Node (A : Type) (g : TreeMultimapNode V -> A) l k v c h r :
  dfs g (Node l k v c h r) = dfs g l ++ g (Node l k v c h r) :: dfs g r.
Proof. unfold dfs; simpl; now rewrite map_app. Qed.

Lemma dfs_set_count p c n :
  dfs (fun m => (key_of m, value_of m)) (update_at p (set_count c) n)
  = dfs (fun m => (key_of m, value_of m)) n.
Proof.
  revert n; induction p as [|s p IH]; intros n.
  - destruct n; [reflexivity|]. simpl. now rewrite !dfs_Node.
  - destruct s, n; simpl; try reflexivity; rewrite !dfs_Node, IH; reflexivity.
Qed.

Lemma subtree_cons s q n :
  subtree (s :: q) n
  = subtree q (match s with LEFT => left_of n | RIGHT => right_of n end).
Proof. destruct s, n; simpl; auto using subtree_Absent. Qed.

Lemma payload_update_elsewhere p q f n :
  (forall m, left_of (f m) = left_of m /\ right_of (f m) = right_of m) ->
  q <> p ->
  payload (subtree q (update_at p f n)) = payload (subtree q n).
Proof.
  intros Hf; revert q n; induction p as [|s p IH]; intros q n Hq.
  - destruct q as [|s' q]; [congruence|].
    simpl update_at. rewrite !subtree_cons.
    destruct (Hf n) as [-> ->]. reflexivity.
  - destruct n; [destruct s; reflexivity|].
    destruct q as [|s' q]; [destruct s; reflexivity|].
    destruct s, s'; simpl; try reflexivity; apply IH; congruence.
Qed.


Lemma shape_update_at p f n :
  shape (f (subtree p n)) = shape (subtree p n) ->
  shape (update_at p f n) = shape n.
Proof.
  revert n; induction p as [|s p IH]; intros n Hf; [apply Hf|].
  destruct s, n; simpl in *; try reflexivity; now rewrite IH.
Qed.

Lemma node_number_shape n m : shape n = shape m -> node_number n = node_number m.
Proof.
  revert m; induction n as [|l IHl k v c h r IHr]; intros [|l' k' v' c' h' r'];
    simpl; intros H; try discriminate; [reflexivity|].
  inversion H. rewrite (IHl l'), (IHr r'); auto.
Qed.

Lemma subTreeSum_update_at p f n :
  is_present (subtree p n) = true ->
  subTreeSum count_of (update_at p f n)
  = subTreeSum count_of n - subTreeSum count_of (subtree p n)
    + subTreeSum count_of (f (subtree p n)).
Proof.
  revert n; induction p as [|s p IH]; intros n H.
  - simpl. lia.
  - destruct n; [rewrite subtree_Absent in H; discriminate|].
    destruct s; simpl in *; rewrite IH by assumption; lia.
Qed.

(** ** Lists in strictly increasing order *)

Lemma StronglySorted_app_inv (A : Type) (R : A -> A -> Prop) (xs ys : list A) :
  StronglySorted R (xs ++ ys) ->
  StronglySorted R xs /\ StronglySorted R ys /\
  (forall x y, In x xs -> In y ys -> R x y).
Proof.
  induction xs as [|a xs IH]; simpl; intros H.
  - repeat split; [constructor|assumption|intros ? ? []].
  - apply StronglySorted_inv in H as [H1 H2].
    destruct (IH H1) as (Hx & Hy & Hxy).
    rewrite Forall_app in H2. destruct H2 as [H2 H3].
    repeat split; [constructor; assumption|assumption|].
    intros x y [<-|Hin] Hy'; [|now apply Hxy].
    rewrite Forall_forall in H3. now apply H3.
Qed.

Lemma StronglySorted_app (A : Type) (R : A -> A -> Prop) (xs ys : list A) :
  StronglySorted R xs -> StronglySorted R ys ->
  (forall x y, In x xs -> In y ys -> R x y) ->
  StronglySorted R (xs ++ ys).
Proof.
  induction xs as [|a xs IH]; simpl; intros Hx Hy Hxy; [assumption|].
  apply StronglySorted_inv in Hx as [H1 H2].
  constructor.
  - apply IH; auto.
  - rewrite Forall_app; split; [assumption|].
    rewrite Forall_forall; intros y Hin; apply Hxy; auto.
Qed.

Lemma inOrderIncreasing_Node l k (v : option V) c h r :
  inOrderIncreasing (Node l k v c h r) <->
  inOrderIncreasing l /\ inOrderIncreasing r /\
  (forall x, In x (dfs key_of l) -> x < k) /\
  (forall x, In x (dfs key_of r) -> k < x).
Proof.
  unfold inOrderIncreasing. rewrite dfs_Node. cbn [key_of]. split.
  - intros H. apply StronglySorted_app_inv in H as (Hl & Hr & Hlr).
    apply StronglySorted_inv in Hr as [Hr Hk].
    rewrite Forall_forall in Hk.
    repeat split; auto. intros x Hx. apply Hlr; [assumption|now left].
  - intros (Hl & Hr & Hlk & Hkr).
    apply StronglySorted_app; [assumption| |].
    + constructor; [assumption|]. now rewrite Forall_forall.
    + intros x y Hx [<-|Hy]; [auto|].
      specialize (Hlk _ Hx). specialize (Hkr _ Hy). lia.
Qed.

Lemma getNodeByKey_complete k n :
  inOrderIncreasing n -> In k (dfs key_of n) ->
  exists p, getNodeByKey k n = Some p.
Proof.
  induction n as [|l IHl k' v c h r IHr]; intros Ho Hin; [destruct Hin|].
  apply inOrderIncreasing_Node in Ho as (Hl & Hr & Hlk & Hkr).
  rewrite dfs_Node in Hin. cbn [key_of] in Hin. simpl.
  destruct (Z.compare_spec k k') as [E|E|E].
  - eexists; reflexivity.
  - apply in_app_or in Hin as [Hin|[Hin|Hin]].
    + destruct (IHl Hl Hin) as [p ->]. eexists; reflexivity.
    + lia.
    + specialize (Hkr _ Hin). lia.
  - apply in_app_or in Hin as [Hin|[Hin|Hin]].
    + specialize (Hlk _ Hin). lia.
    + lia.
    + destruct (IHr Hr Hin) as [p ->]. eexists; reflexivity.
Qed.

(** ** [add] with no usable key *)

(** C8: [add] called with [undefined], [null], or an entry whose key is
    [undefined] or [null], returns [undefined] and hands back the tree as
    it was: root, size and total are the ones before the call. *)
Theorem add_absent_key_is_noop t (amount : Z) (v : option V) :
  add ExUndefined amount t = (t, None) /\
  add ExNull amount t = (t, None) /\
  add (ExEntry KeyUndefined v) amount t = (t, None) /\
  add (ExEntry KeyNull v) amount t = (t, None).
Proof. repeat split. Qed.

(** ** [delete] *)

(** C6: when no node reachable from the root matches the identifier under
    the callback, [delete] returns the empty array and the tree it leaves
    is the tree it found, so size, total and shape are unchanged. *)
Theorem delete_unmatched_is_noop (i : Identifier V) (ignoreCount : bool) t :
  (forall m, In m (inorder (root t)) -> matchesNode i m = false) ->
  delete i ignoreCount t = (t, []).
Proof.
  intros Hno. unfold delete.
  destruct (root t) as [|l k v c h r] eqn:Hr; [reflexivity|].
  destruct (getNode i (Node l k v c h r)) as [p|] eqn:Hg; [|reflexivity].
  apply getNode_sound in Hg as [Hp Hm].
  rewrite Hno in Hm; [discriminate|].
  now apply subtree_In.
Qed.


(** ** [add] on a key that is already there *)

Lemma replaceNode_createNode n k v c :
  is_present n = true ->
  _replaceNode n (createNode k v c)
  = Node (left_of n) k v (numAdd (count_of n) c) (height_of n) (right_of n).
Proof. destruct n; [discriminate|reflexivity]. Qed.

Lemma insertNode_existing k v c n p :
  getNodeByKey k n = Some p ->
  insertNode (createNode k v c) n
  = (update_at p (fun old => _replaceNode old (createNode k v c)) n,
     Some (subtree p n)).
Proof.
  revert p; induction n as [|l IHl k' v' c' h r IHr]; intros p H; simpl in H.
  - discriminate.
  - change (insertNode (createNode k v c) (Node l k' v' c' h r))
      with (match k ?= k' with
            | Eq => (_replaceNode (Node l k' v' c' h r) (createNode k v c),
                     Some (Node l k' v' c' h r))
            | Lt => let (l', replaced) := insertNode (createNode k v c) l in
                    (match replaced with
                     | None => balanceNode (Node l' k' v' c' h r)
                     | Some _ => Node l' k' v' c' h r
                     end, replaced)
            | Gt => let (r', replaced) := insertNode (createNode k v c) r in
                    (match replaced with
                     | None => balanceNode (Node l k' v' c' h r')
                     | Some _ => Node l k' v' c' h r'
                     end, replaced)
            end).
    destruct (k ?= k') eqn:E.
    + inversion H; subst. reflexivity.
    + destruct (getNodeByKey k l) as [p'|]; [|discriminate].
      inversion H; subst. rewrite (IHl p' eq_refl). reflexivity.
    + destruct (getNodeByKey k r) as [p'|]; [|discriminate].
      inversion H; subst. rewrite (IHr p' eq_refl). reflexivity.
Qed.

(** Sums within 2^53 are not rounded. *)
Lemma numAdd_exact a b : Z.abs (a + b) <= 2 ^ 53 -> numAdd a b = a + b.
Proof.
  intros H. unfold numAdd, roundNumber.
  apply Z.leb_le in H. now rewrite H.
Qed.

(** On the samples, [numAdd] is the addition of binary64. *)
Lemma numAdd_binary64_samples :
  forallb (fun ab => numAddIsBinary64 (fst ab) (snd ab)) roundingSamples = true.
Proof. vm_compute. reflexivity. Qed.

Lemma countMagnitude_nonneg n : 0 <= countMagnitude n.
Proof.
  unfold countMagnitude.
  induction n as [|l IHl k v c h r IHr]; cbn [subTreeSum count_of]; lia.
Qed.

Lemma count_within_magnitude p n :
  Z.abs (count_of (subtree p n)) <= countMagnitude n.
Proof.
  revert n; induction p as [|s p IH]; intros n.
  - destruct n as [|l k v c h r]; cbn [subtree count_of]; [reflexivity|].
    pose proof (countMagnitude_nonneg l). pose proof (countMagnitude_nonneg r).
    unfold countMagnitude in *. cbn [subTreeSum count_of]. lia.
  - destruct n as [|l k v c h r].
    + rewrite subtree_Absent. reflexivity.
    + pose proof (countMagnitude_nonneg l). pose proof (countMagnitude_nonneg r).
      destruct s; cbn [subtree];
        [specialize (IH l)|specialize (IH r)];
        unfold countMagnitude in *; cbn [subTreeSum count_of]; lia.
Qed.

(** C4: when the key is already in the tree and the numbers involved stay
    exactly representable, [add] with that key (alone, in an entry or on a
    node) and an amount puts the sum of the old count and the amount on
    the node holding the key, raises the total by the amount (field and
    getter), and leaves the shape, the number of nodes, the size and the
    payload of every other node as they were. *)
Theorem add_existing_key_bumps_count t (e : BTNodeExemplar V) k v amount :
  inOrderIncreasing (root t) ->
  In k (dfs key_of (root t)) ->
  exemplarToNode e amount = Some (createNode k v amount) ->
  exactlyRepresentable amount t ->
  exists p,
    getNodeByKey k (root t) = Some p /\
    let old := subtree p (root t) in
    let t' := fst (add e amount t) in
    key_of old = k /\
    payload (subtree p (root t')) = (k, v, count_of old + amount) /\
    (forall q, q <> p -> payload (subtree q (root t')) = payload (subtree q (root t))) /\
    shape (root t') = shape (root t) /\
    node_number (root t') = node_number (root t) /\
    size t' = size t /\
    _count t' = _count t + amount /\
    count t' = count t + amount /\
    snd (add e amount t) = Some (k, v, count_of old + amount).
Proof.
  intros Ho Hin He [Hnodes Hfield].
  destruct (getNodeByKey_complete _ Ho Hin) as [p Hp].
  exists p; split; [assumption|].
  destruct (getNodeByKey_sound _ _ Hp) as [Hpres Hkey].
  assert (Hnode : numAdd (count_of (subtree p (root t))) amount
                  = count_of (subtree p (root t)) + amount).
  { apply numAdd_exact. pose proof (count_within_magnitude p (root t)). lia. }
  assert (Htotal : numAdd (_count t) amount = _count t + amount).
  { apply numAdd_exact. lia. }
  assert (Hshape : shape (update_at p
            (fun old => _replaceNode old (createNode k v amount)) (root t))
          = shape (root t)).
  { apply shape_update_at. rewrite replaceNode_createNode by assumption.
    destruct (subtree p (root t)); [discriminate|reflexivity]. }
  unfold add. rewrite He. unfold super_add.
  erewrite insertNode_existing by eassumption.
  cbn [fst snd root size _count count_of createNode].
  rewrite replaceNode_createNode, Hnode, Htotal by assumption.
  repeat split.
  - assumption.
  - rewrite subtree_update_at by assumption.
    now rewrite replaceNode_createNode, Hnode.
  - intros q Hq. apply payload_update_elsewhere; [|assumption].
    intros [|]; split; reflexivity.
  - assumption.
  - now apply node_number_shape.
  - unfold count; cbn [root].
    rewrite subTreeSum_update_at, replaceNode_createNode, Hnode by assumption.
    destruct (subtree p (root t)); [discriminate|simpl; lia].
Qed.

End Facts.

(** ** The tree holding the single key 5 *)

(** C1, on the tree made by [add(5)] on an empty tree: [delete(5)] finds
    the root, which has no left child, no parent and no right child, so
    [_setRoot] is not called and the node stays where it was; [_size] and
    [_count] are lowered all the same. *)
Theorem delete_last_node_leaves_root :
  let t' := fst (delete (ByKey 5) false onlyFive) in
  dfs (fun m => (key_of m, count_of m)) (root onlyFive) = [(5, 1)] /\
  root t' = root onlyFive /\
  In 5 (dfs (@key_of Z) (root t')) /\
  size t' = size onlyFive - 1 /\
  _count t' = _count onlyFive - 1 /\
  count t' = count onlyFive.
Proof. vm_compute. repeat split. left; reflexivity. Qed.

(** C2, same input: after [delete(5)] returns, [size] is 0 while one node
    is still reachable from the root, and the [count] getter is 1 while
    [_count] is 0. *)
Theorem delete_last_node_breaks_size :
  let t' := fst (delete (ByKey 5) false onlyFive) in
  size onlyFive = node_number (root onlyFive) /\
  size t' = 0 /\
  node_number (root t') = 1 /\
  count t' = 1 /\
  _count t' = 0.
Proof. vm_compute. repeat split. Qed.

(** ** The two rebuild loops *)

Lemma midpoint_bounds l r : l <= r -> l <= midpoint l r <= r.
Proof. unfold midpoint. intros. Z.div_mod_to_equations. lia. Qed.

Section RebuildFacts.

Context {V State : Type}.
Variable addEntry : Z -> option V -> Z -> State -> State.
Variable sorted : list (TreeMultimapNode V).

Lemma at_index_in_range m :
  0 <= m < Z.of_nat (length sorted) -> exists nd, at_index sorted m = Some nd.
Proof.
  intros Hm. unfold at_index.
  destruct (Z.ltb_spec m 0); [lia|].
  destruct (nth_error sorted (Z.to_nat m)) eqn:E; [eauto|].
  apply nth_error_None in E. lia.
Qed.

Lemma buildBalanceBST_unfolded l r st :
  buildBalanceBST addEntry sorted l r st
  = if Z_gt_dec l r then Some st
    else match at_index sorted (midpoint l r) with
         | None => None
         | Some midNode =>
             match buildBalanceBST addEntry sorted l (midpoint l r - 1)
                     (addMid addEntry midNode st) with
             | None => None
             | Some st' => buildBalanceBST addEntry sorted (midpoint l r + 1) r st'
             end
         end.
Proof.
  rewrite buildBalanceBST_equation_1.
  destruct (Z_gt_dec l r); cbn; [reflexivity|].
  destruct (at_index sorted (midpoint l r)); cbn; [|reflexivity].
  destruct (buildBalanceBST addEntry sorted l (midpoint l r - 1) _); reflexivity.
Qed.

Lemma buildLoop_unfolded l r stack st :
  buildLoop addEntry sorted ((l, r) :: stack) st
  = if Z_le_dec l r then
      match at_index sorted (midpoint l r) with
      | None => None
      | Some midNode =>
          buildLoop addEntry sorted
            ((l, midpoint l r - 1) :: (midpoint l r + 1, r) :: stack)
            (addMid addEntry midNode st)
      end
    else buildLoop addEntry sorted stack st.
Proof.
  rewrite buildLoop_equation_2.
  destruct (Z_le_dec l r); cbn; [|reflexivity].
  destruct (at_index sorted (midpoint l r)); reflexivity.
Qed.

Lemma medianPreorder_unfolded l r :
  medianPreorder sorted l r
  = if Z_gt_dec l r then []
    else match at_index sorted (midpoint l r) with
         | None => []
         | Some midNode =>
             midNode :: medianPreorder sorted l (midpoint l r - 1)
                     ++ medianPreorder sorted (midpoint l r + 1) r
         end.
Proof.
  rewrite medianPreorder_equation_1.
  destruct (Z_gt_dec l r); cbn; [reflexivity|].
  destruct (at_index sorted (midpoint l r)); reflexivity.
Qed.

Lemma replay_app xs ys st :
  replay addEntry (xs ++ ys) st = replay addEntry ys (replay addEntry xs st).
Proof. unfold replay. apply fold_left_app. Qed.

(** The recursive closure makes the calls of [medianPreorder], in that
    order, and never reads outside the array. *)
Lemma buildBalanceBST_replay l r st :
  0 <= l -> r < Z.of_nat (length sorted) ->
  buildBalanceBST addEntry sorted l r st
  = Some (replay addEntry (medianPreorder sorted l r) st).
Proof.
  remember (span l r) as w eqn:Hw.
  revert l r st Hw.
  induction w as [w IH] using lt_wf_ind; intros l r st Hw Hl Hr.
  rewrite buildBalanceBST_unfolded, medianPreorder_unfolded.
  destruct (Z_gt_dec l r) as [G|G]; [reflexivity|].
  pose proof (@midpoint_bounds l r) as Hm.
  destruct (at_index_in_range (m := midpoint l r)) as [midNode ->]; [lia|].
  assert (H1 : lt (span l (midpoint l r - 1)) w).
  { subst w. unfold span. lia. }
  assert (H2 : lt (span (midpoint l r + 1) r) w).
  { subst w. unfold span. lia. }
  rewrite (IH _ H1 l (midpoint l r - 1)) by (reflexivity || lia).
  rewrite (IH _ H2 (midpoint l r + 1) r) by (reflexivity || lia).
  cbn [replay fold_left]. now rewrite <- replay_app.
Qed.

(** The loop with a stack does to each range, top of the stack first,
    what the recursive closure does to it. *)
Lemma buildLoop_replay stack st :
  Forall (inBounds sorted) stack ->
  buildLoop addEntry sorted stack st
  = Some (replay addEntry
            (flat_map (fun lr => medianPreorder sorted (fst lr) (snd lr)) stack) st).
Proof.
  remember (stackWeight stack) as w eqn:Hw.
  revert stack st Hw.
  induction w as [w IH] using lt_wf_ind; intros stack st Hw Hb.
  destruct stack as [|[l r] stack].
  - now rewrite buildLoop_equation_1.
  - apply Forall_cons_iff in Hb as [[Hl Hr] Hb]. cbn [fst snd] in Hl, Hr.
    rewrite buildLoop_unfolded. cbn [flat_map fst snd].
    rewrite (medianPreorder_unfolded l r).
    destruct (Z_le_dec l r) as [G|G]; destruct (Z_gt_dec l r) as [G'|G']; try lia.
    + pose proof (@midpoint_bounds l r G) as Hm.
      destruct (at_index_in_range (m := midpoint l r)) as [midNode ->]; [lia|].
      rewrite (IH (stackWeight ((l, midpoint l r - 1) :: (midpoint l r + 1, r) :: stack))).
      * cbn [flat_map fst snd]. cbn [replay fold_left app].
        now rewrite <- !app_assoc.
      * subst w. unfold stackWeight, rangeWeight, span. simpl. lia.
      * reflexivity.
      * repeat (apply Forall_cons; [split; cbn [fst snd]; lia|]). assumption.
    + rewrite (IH (stackWeight stack)); [reflexivity| |reflexivity|assumption].
      subst w. unfold stackWeight, rangeWeight. simpl. lia.
Qed.

(** Both variants, from the same array and the same state. *)
Lemma buildLoop_buildBalanceBST st :
  buildLoop addEntry sorted [(0, Z.of_nat (length sorted) - 1)] st
  = buildBalanceBST addEntry sorted 0 (Z.of_nat (length sorted) - 1) st.
Proof.
  rewrite buildLoop_replay, buildBalanceBST_replay; try lia.
  - cbn [flat_map fst snd]. now rewrite app_nil_r.
  - repeat constructor; cbn [fst snd]; lia.
Qed.

End RebuildFacts.

Section PerfectlyBalanceFacts.

Context {V : Type}.

Implicit Types (n m l r : TreeMultimapNode V) (t : TreeMultimap V).

Lemma inorder_nonempty n : n <> Absent -> 1 <= Z.of_nat (length (inorder n)).
Proof.
  destruct n; [congruence|]. intros _. simpl.
  rewrite length_app. simpl. lia.
Qed.

Lemma dfs_id n : dfs (fun node => node) n = inorder n.
Proof. unfold dfs. apply map_id. Qed.

Lemma perfectlyBalance_replay (it : IterationType) t :
  root t <> Absent ->
  perfectlyBalance it t
  = Some (replay addEntryToTree (medianPreorder (sortedNodes t) 0 (lastIndex t)) (clear t),
          true).
Proof.
  intros Hne. unfold perfectlyBalance.
  fold (sortedNodes t). 
  assert (Hn : 1 <= Z.of_nat (length (sortedNodes t))).
  { unfold sortedNodes. rewrite dfs_id. now apply inorder_nonempty. }
  destruct (Z.ltb_spec (Z.of_nat (length (sortedNodes t))) 1); [lia|].
  destruct it.
  - rewrite buildBalanceBST_replay by lia. reflexivity.
  - rewrite buildLoop_buildBalanceBST, buildBalanceBST_replay by lia. reflexivity.
Qed.

Lemma replay_logEntry (nodes : list (TreeMultimapNode V)) log :
  replay logEntry nodes log = log ++ map payload nodes.
Proof.
  unfold replay.
  revert log; induction nodes as [|x xs IH]; intros log; cbn [fold_left map].
  - now rewrite app_nil_r.
  - rewrite IH. unfold addMid, logEntry, payload. now rewrite <- app_assoc.
Qed.

Lemma addCalls_medianPreorder (it : IterationType) t :
  addCalls it t
  = Some (map payload (medianPreorder (sortedNodes t) 0 (lastIndex t))).
Proof.
  unfold addCalls. fold (sortedNodes t). unfold lastIndex.
  destruct (Z.ltb_spec (Z.of_nat (length (sortedNodes t))) 1) as [H|H].
  - rewrite medianPreorder_unfolded.
    destruct (Z_gt_dec 0 (Z.of_nat (length (sortedNodes t)) - 1)); [reflexivity|lia].
  - destruct it.
    + rewrite buildBalanceBST_replay, replay_logEntry by lia. reflexivity.
    + rewrite buildLoop_buildBalanceBST, buildBalanceBST_replay, replay_logEntry by lia.
      reflexivity.
Qed.

Lemma replay_payloads (nodes : list (TreeMultimapNode V)) t :
  replay addEntryToTree nodes t
  = fold_left (fun st x => addEntryToTree (fst (fst x)) (snd (fst x)) (snd x) st)
              (map payload nodes) t.
Proof.
  unfold replay.
  revert t; induction nodes as [|x xs IH]; intros t; [reflexivity|].
  cbn [fold_left map]. now rewrite IH.
Qed.

(** C10: on a non-empty tree the recursive and the iterative variant make
    the same [add] calls in the same order (the median of the range, then
    the left half, then the right half) and so end in the same tree, which
    is the one obtained by making these calls on the cleared tree. *)
Theorem perfectlyBalance_variants_same_calls t :
  root t <> Absent ->
  exists calls t',
    calls = map payload (medianPreorder (sortedNodes t) 0 (lastIndex t)) /\
    addCalls RECURSIVE t = Some calls /\
    addCalls ITERATIVE t = Some calls /\
    t' = fold_left (fun st x => addEntryToTree (fst (fst x)) (snd (fst x)) (snd x) st)
                   calls (clear t) /\
    perfectlyBalance RECURSIVE t = Some (t', true) /\
    perfectlyBalance ITERATIVE t = Some (t', true).
Proof.
  intros Hne. do 2 eexists.
  split; [reflexivity|].
  rewrite !addCalls_medianPreorder, !perfectlyBalance_replay by assumption.
  rewrite replay_payloads. repeat split.
Qed.

(** C9: on a non-empty tree both variants return true and leave trees with
    the same in-order keys, the same count for every key, the same total
    (getter and field) and the same size. *)
Theorem perfectlyBalance_variants_same_content t :
  root t <> Absent ->
  exists tr ti,
    perfectlyBalance RECURSIVE t = Some (tr, true) /\
    perfectlyBalance ITERATIVE t = Some (ti, true) /\
    dfs key_of (root tr) = dfs key_of (root ti) /\
    dfs (fun m => (key_of m, count_of m)) (root tr)
    = dfs (fun m => (key_of m, count_of m)) (root ti) /\
    count tr = count ti /\
    _count tr = _count ti /\
    size tr = size ti.
Proof.
  intros Hne. do 2 eexists.
  rewrite !perfectlyBalance_replay by assumption.
  repeat split.
Qed.

End PerfectlyBalanceFacts.

(** ** The AVL layer: heights and balance *)

Section AVLFacts.

Context {V : Type}.

Implicit Types (n m l r : TreeMultimapNode V) (t : TreeMultimap V).

Lemma avlInvariant_real_height n : avlInvariant n -> height_of n = real_height n.
Proof.
  induction n as [|l IHl k v c h r IHr];
    cbn [avlInvariant height_of real_height]; [reflexivity|].
  intros (Hl & Hr & Hh & _). rewrite <- IHl, <- IHr; assumption.
Qed.

Lemma avlInvariant_isAVLBalanced n : avlInvariant n -> isAVLBalancedFrom n = true.
Proof.
  induction n as [|l IHl k v c h r IHr];
    cbn [avlInvariant isAVLBalancedFrom]; [reflexivity|].
  intros (Hl & Hr & Hh & Hb).
  rewrite IHl, IHr by assumption.
  rewrite <- !avlInvariant_real_height by assumption.
  rewrite !andb_true_r. apply Z.leb_le. lia.
Qed.

Lemma height_of_lower_bound n : avlInvariant n -> -1 <= height_of n.
Proof.
  induction n as [|l IHl k v c h r IHr]; cbn [avlInvariant height_of]; [lia|].
  intros (Hl & Hr & -> & _). specialize (IHl Hl). lia.
Qed.

Lemma avlInvariant_mkNode l k v c r :
  avlInvariant l -> avlInvariant r ->
  -1 <= height_of r - height_of l <= 1 ->
  avlInvariant (mkNode l k v c r).
Proof. cbn [mkNode avlInvariant]; auto. Qed.

(** One rebalancing step repairs a node whose subtrees are in order and
    whose heights differ by at most 2. *)
Lemma balanceNode_avl l k v c h r :
  avlInvariant l -> avlInvariant r ->
  -2 <= height_of r - height_of l <= 2 ->
  avlInvariant (balanceNode (Node l k v c h r)) /\
  Z.max (height_of l) (height_of r) <= height_of (balanceNode (Node l k v c h r))
    <= 1 + Z.max (height_of l) (height_of r) /\
  (-1 <= height_of r - height_of l <= 1 ->
   height_of (balanceNode (Node l k v c h r))
   = 1 + Z.max (height_of l) (height_of r)).
Proof.
  intros Hl Hr Hd. unfold balanceNode.
  cbn [_updateHeight mkNode _balanceFactor].
  destruct (Z.ltb_spec (height_of r - height_of l) (-1)) as [B|B].
  - (* left-heavy *)
    destruct l as [|ll lk lv lc lh lr];
      [pose proof (height_of_lower_bound _ Hr); cbn [height_of] in *; lia|].
    destruct Hl as (Hll & Hlr & Hlh & Hlb). cbn [height_of] in *.
    cbn [_balanceFactor].
    destruct (Z.leb_spec (height_of lr - height_of ll) 0) as [C|C].
    + cbn [rotateRight mkNode avlInvariant height_of].
      repeat split; auto; lia.
    + destruct lr as [|lrl lrk lrv lrc lrh lrr];
        [pose proof (height_of_lower_bound _ Hll); cbn [height_of] in *; lia|].
      destruct Hlr as (Hlrl & Hlrr & Hlrh & Hlrb). cbn [height_of] in *.
      cbn [rotateLeft rotateRight mkNode avlInvariant height_of].
      repeat split; auto; lia.
  - destruct (Z.ltb_spec 1 (height_of r - height_of l)) as [B'|B'].
    + (* right-heavy *)
      destruct r as [|rl rk rv rc rh rr];
        [pose proof (height_of_lower_bound _ Hl); cbn [height_of] in *; lia|].
      destruct Hr as (Hrl & Hrr & Hrh & Hrb). cbn [height_of] in *.
      cbn [_balanceFactor].
      destruct (Z.leb_spec 0 (height_of rr - height_of rl)) as [C|C].
      * cbn [rotateLeft mkNode avlInvariant height_of].
        repeat split; auto; lia.
      * destruct rl as [|rll rlk rlv rlc rlh rlr];
          [pose proof (height_of_lower_bound _ Hrr); cbn [height_of] in *; lia|].
        destruct Hrl as (Hrll & Hrlr & Hrlh & Hrlb). cbn [height_of] in *.
        cbn [rotateLeft rotateRight mkNode avlInvariant height_of].
        repeat split; auto; lia.
    + cbn [avlInvariant height_of]. repeat split; auto; lia.
Qed.

Lemma insertNode_avl k v c n :
  avlInvariant n ->
  avlInvariant (fst (insertNode (createNode k v c) n)) /\
  height_of n <= height_of (fst (insertNode (createNode k v c) n)) <= height_of n + 1 /\
  (snd (insertNode (createNode k v c) n) <> None ->
   height_of (fst (insertNode (createNode k v c) n)) = height_of n).
Proof.
  induction n as [|l IHl k' v' c' h r IHr]; intros Ha.
  - cbn. repeat split; auto; try lia. congruence.
  - destruct Ha as (Hl & Hr & Hh & Hb).
    specialize (IHl Hl). specialize (IHr Hr).
    cbn [insertNode createNode key_of]. fold (createNode k v c).
    destruct (k ?= k').
    + cbn [fst snd _replaceNode super_replaceNode set_count createNode
           avlInvariant height_of].
      repeat split; auto; lia.
    + destruct (insertNode (createNode k v c) l) as [l' [old|]];
        cbn [fst snd] in *; destruct IHl as (Hl' & Hh' & Heq).
      * specialize (Heq ltac:(congruence)).
        cbn [avlInvariant height_of]. repeat split; auto; lia.
      * destruct (@balanceNode_avl l' k' v' c' h r) as (Hn & Hhn & Hex);
          auto; [lia|].
        split; [assumption|]. split; [|congruence].
        destruct (Z.eq_dec (height_of r - height_of l') (-2)).
        -- cbn [height_of]. lia.
        -- rewrite Hex by lia. cbn [height_of]. lia.
    + destruct (insertNode (createNode k v c) r) as [r' [old|]];
        cbn [fst snd] in *; destruct IHr as (Hr' & Hh' & Heq).
      * specialize (Heq ltac:(congruence)).
        cbn [avlInvariant height_of]. repeat split; auto; lia.
      * destruct (@balanceNode_avl l k' v' c' h r') as (Hn & Hhn & Hex);
          auto; [lia|].
        split; [assumption|]. split; [|congruence].
        destruct (Z.eq_dec (height_of r' - height_of l) 2).
        -- cbn [height_of]. lia.
        -- rewrite Hex by lia. cbn [height_of]. lia.
Qed.

End AVLFacts.

(** ** The in-order sequence under rebalancing and insertion *)

Section ElementsFacts.

Context {V : Type}.

Implicit Types (n m l r : TreeMultimapNode V) (t : TreeMultimap V).
Implicit Types (x y : Z * option V * Z) (xs ys : list (Z * option V * Z)).

Lemma elements_Node l k v c h r :
  elements (Node l k v c h r) = elements l ++ (k, v, c) :: elements r.
Proof. unfold elements. now rewrite dfs_Node. Qed.

Lemma keys_elements n : dfs key_of n = map (fun x => fst (fst x)) (elements n).
Proof. unfold elements, dfs. rewrite map_map. reflexivity. Qed.

Lemma key_in_elements x n : In x (elements n) -> In (fst (fst x)) (dfs key_of n).
Proof.
  rewrite keys_elements. intros H.
  apply (in_map (fun y => fst (fst y))) in H. exact H.
Qed.

Lemma elements_mkNode l k v c r :
  elements (mkNode l k v c r) = elements l ++ (k, v, c) :: elements r.
Proof. apply elements_Node. Qed.

Lemma elements_rotateRight n : elements (rotateRight n) = elements n.
Proof.
  destruct n as [|[|ll lk lv lc lh lr] k v c h r]; try reflexivity.
  cbn [rotateRight]. rewrite !elements_mkNode, !elements_Node.
  now rewrite <- app_assoc.
Qed.

Lemma elements_rotateLeft n : elements (rotateLeft n) = elements n.
Proof.
  destruct n as [|l k v c h [|rl rk rv rc rh rr]]; try reflexivity.
  cbn [rotateLeft]. rewrite !elements_mkNode, !elements_Node.
  now rewrite <- app_assoc.
Qed.

Lemma elements_balanceNode n : elements (balanceNode n) = elements n.
Proof.
  destruct n as [|l k v c h r]; [reflexivity|].
  unfold balanceNode. cbn [_updateHeight mkNode].
  repeat match goal with
         | |- context [if ?b then _ else _] => destruct b
         end;
    rewrite ?elements_rotateRight, ?elements_rotateLeft, ?elements_Node,
            ?elements_rotateRight, ?elements_rotateLeft;
    reflexivity.
Qed.

Lemma elements__balancePath p n : elements (_balancePath p n) = elements n.
Proof.
  revert n; induction p as [|s p IH]; intros n; cbn [_balancePath].
  - apply elements_balanceNode.
  - destruct s, n; try reflexivity;
      rewrite elements_balanceNode, !elements_Node, IH; reflexivity.
Qed.

Lemma insertPayload_app_lt x y xs ys :
  fst (fst x) < fst (fst y) ->
  insertPayload x (xs ++ y :: ys) = insertPayload x xs ++ y :: ys.
Proof.
  intros Hxy. induction xs as [|a xs IH]; cbn [insertPayload app].
  - apply Z.compare_lt_iff in Hxy. now rewrite Hxy.
  - destruct (fst (fst x) ?= fst (fst a)); cbn [app]; [reflexivity..|].
    now rewrite IH.
Qed.

Lemma insertPayload_app_gt x y xs ys :
  (forall a, In a xs -> fst (fst a) < fst (fst x)) ->
  fst (fst y) < fst (fst x) ->
  insertPayload x (xs ++ y :: ys) = xs ++ y :: insertPayload x ys.
Proof.
  intros Hxs Hyx. induction xs as [|a xs IH]; cbn [insertPayload app].
  - apply Z.compare_gt_iff in Hyx. now rewrite Hyx.
  - assert (Ha : fst (fst a) < fst (fst x)) by (apply Hxs; now left).
    apply Z.compare_gt_iff in Ha. rewrite Ha.
    rewrite IH; [reflexivity|]. intros b Hb. apply Hxs. now right.
Qed.

Lemma insertPayload_app_eq x y xs ys :
  (forall a, In a xs -> fst (fst a) < fst (fst x)) ->
  fst (fst x) = fst (fst y) ->
  insertPayload x (xs ++ y :: ys)
  = xs ++ (fst (fst x), snd (fst x), numAdd (snd y) (snd x)) :: ys.
Proof.
  intros Hxs Hxy. induction xs as [|a xs IH]; cbn [insertPayload app].
  - apply Z.compare_eq_iff in Hxy. now rewrite Hxy.
  - assert (Ha : fst (fst a) < fst (fst x)) by (apply Hxs; now left).
    apply Z.compare_gt_iff in Ha. rewrite Ha.
    rewrite IH; [reflexivity|]. intros b Hb. apply Hxs. now right.
Qed.

(** On a tree whose in-order keys increase, inserting a node does to the
    in-order sequence what [insertPayload] does to a list. *)
Lemma elements_insertNode k v c n :
  inOrderIncreasing n ->
  elements (fst (insertNode (createNode k v c) n))
  = insertPayload (k, v, c) (elements n).
Proof.
  induction n as [|l IHl k' v' c' h r IHr]; intros Ho; [reflexivity|].
  apply inOrderIncreasing_Node in Ho as (Hl & Hr & Hlk & Hkr).
  specialize (IHl Hl). specialize (IHr Hr).
  cbn [insertNode createNode key_of]. fold (createNode k v c).
  rewrite elements_Node.
  destruct (Z.compare_spec k k') as [E|E|E].
  - subst k'. cbn [fst _replaceNode super_replaceNode set_count createNode count_of].
    rewrite elements_Node, insertPayload_app_eq; [reflexivity| |reflexivity].
    intros a Ha. apply key_in_elements in Ha. cbn [fst]. auto.
  - rewrite insertPayload_app_lt by assumption. rewrite <- IHl.
    destruct (insertNode (createNode k v c) l) as [l' [old|]]; cbn [fst];
      rewrite ?elements_balanceNode, elements_Node; reflexivity.
  - rewrite insertPayload_app_gt; [| |assumption].
    + rewrite <- IHr.
      destruct (insertNode (createNode k v c) r) as [r' [old|]]; cbn [fst];
        rewrite ?elements_balanceNode, elements_Node; reflexivity.
    + intros a Ha. apply key_in_elements in Ha. specialize (Hlk _ Ha).
      cbn [fst]. lia.
Qed.

End ElementsFacts.

(** ** Sorted payload lists *)

Section SortedPayloads.

Context {V : Type}.

Implicit Types (x y : Z * option V * Z) (xs ys : list (Z * option V * Z)).

Lemma keysOf_insertPayload_In x xs k :
  In k (keysOf (insertPayload x xs)) -> k = fst (fst x) \/ In k (keysOf xs).
Proof.
  induction xs as [|y ys IH]; cbn [insertPayload keysOf map In].
  - intros [<-|[]]; now left.
  - destruct (Z.compare_spec (fst (fst x)) (fst (fst y))) as [E|E|E];
      cbn [map In fst].
    + intros [<-|H]; [now left|right; now right].
    + intros [<-|[<-|H]]; [now left|right; now left|right; now right].
    + intros [<-|H]; [right; now left|].
      destruct (IH H) as [->|H']; [now left|right; now right].
Qed.

Lemma insertPayload_sorted x xs :
  StronglySorted Z.lt (keysOf xs) ->
  StronglySorted Z.lt (keysOf (insertPayload x xs)).
Proof.
  induction xs as [|y ys IH]; cbn [insertPayload keysOf map]; intros Hs.
  - repeat constructor.
  - apply StronglySorted_inv in Hs as [Hs Hy].
    destruct (Z.compare_spec (fst (fst x)) (fst (fst y))) as [E|E|E];
      cbn [map fst].
    + rewrite E. now constructor.
    + constructor; [now constructor|].
      constructor; [assumption|].
      eapply Forall_impl; [|exact Hy]. cbn beta. intros; lia.
    + constructor; [now apply IH|].
      rewrite Forall_forall. intros k Hk.
      apply keysOf_insertPayload_In in Hk as [->|Hk]; [assumption|].
      rewrite Forall_forall in Hy. now apply Hy.
Qed.

Lemma insertPayload_fresh x xs :
  ~ In (fst (fst x)) (keysOf xs) -> Permutation (insertPayload x xs) (x :: xs).
Proof.
  induction xs as [|y ys IH]; cbn [insertPayload keysOf map In]; intros Hn.
  - reflexivity.
  - destruct (Z.compare_spec (fst (fst x)) (fst (fst y))) as [E|E|E].
    + exfalso. apply Hn. left. now symmetry.
    + reflexivity.
    + rewrite IH by (intros H; apply Hn; now right). apply perm_swap.
Qed.

Lemma insertAll_sorted xs ys :
  StronglySorted Z.lt (keysOf ys) -> StronglySorted Z.lt (keysOf (insertAll xs ys)).
Proof.
  revert ys; induction xs as [|x xs IH]; intros ys Hs; [assumption|].
  cbn [insertAll fold_left]. apply IH. now apply insertPayload_sorted.
Qed.

Lemma insertAll_distinct xs ys :
  NoDup (keysOf (ys ++ xs)) -> Permutation (insertAll xs ys) (ys ++ xs).
Proof.
  revert ys; induction xs as [|x xs IH]; intros ys Hn.
  - now rewrite app_nil_r.
  - cbn [insertAll fold_left].
    assert (Hx : ~ In (fst (fst x)) (keysOf ys)).
    { unfold keysOf in *. rewrite map_app in Hn. cbn [map] in Hn.
      apply NoDup_remove_2 in Hn. intros H. apply Hn.
      apply in_or_app. now left. }
    assert (Hp : Permutation (insertPayload x ys ++ xs) (ys ++ x :: xs)).
    { rewrite (insertPayload_fresh _ _ Hx). cbn [app]. apply Permutation_middle. }
    fold (insertAll xs (insertPayload x ys)).
    rewrite IH; [assumption|].
    eapply Permutation_NoDup; [|exact Hn].
    unfold keysOf. apply Permutation_map. now symmetry.
Qed.

Lemma sorted_keys_NoDup xs : StronglySorted Z.lt (keysOf xs) -> NoDup (keysOf xs).
Proof.
  induction (keysOf xs) as [|k ks IH]; intros Hs; constructor.
  - apply StronglySorted_inv in Hs as [_ Hk].
    rewrite Forall_forall in Hk. intros H. specialize (Hk _ H). lia.
  - apply IH. now apply StronglySorted_inv in Hs.
Qed.

(** Two lists with strictly increasing keys and the same elements are the
    same list. *)
Lemma sorted_Permutation_eq xs ys :
  StronglySorted Z.lt (keysOf xs) -> StronglySorted Z.lt (keysOf ys) ->
  Permutation xs ys -> xs = ys.
Proof.
  revert ys; induction xs as [|a xs IH]; intros ys Hx Hy Hp.
  - apply Permutation_nil in Hp. now subst.
  - destruct ys as [|b ys];
      [apply Permutation_sym, Permutation_nil in Hp; discriminate|].
    cbn [keysOf map] in Hx, Hy.
    apply StronglySorted_inv in Hx as [Hx Hax].
    apply StronglySorted_inv in Hy as [Hy Hby].
    rewrite Forall_forall in Hax, Hby.
    assert (Hab : a = b).
    { assert (Ha : In a (b :: ys)) by (eapply Permutation_in; [exact Hp|now left]).
      assert (Hb : In b (a :: xs))
        by (eapply Permutation_in; [symmetry; exact Hp|now left]).
      destruct Ha as [Ha|Ha]; [now symmetry|].
      destruct Hb as [Hb|Hb]; [assumption|].
      apply (in_map (fun x => fst (fst x))) in Ha, Hb.
      specialize (Hax _ Hb). specialize (Hby _ Ha). lia. }
    subst b. f_equal. apply IH; try assumption.
    now apply Permutation_cons_inv in Hp.
Qed.

Lemma insertAll_of_permutation xs ys :
  StronglySorted Z.lt (keysOf ys) -> Permutation xs ys -> insertAll xs [] = ys.
Proof.
  intros Hs Hp. apply sorted_Permutation_eq.
  - apply insertAll_sorted. constructor.
  - assumption.
  - rewrite insertAll_distinct; [assumption|]. cbn [app].
    eapply Permutation_NoDup; [|apply sorted_keys_NoDup; exact Hs].
    unfold keysOf. apply Permutation_map. now symmetry.
Qed.

End SortedPayloads.

(** ** [perfectlyBalance] keeps the content and balances the tree *)

Section RoundTrip.

Context {V : Type}.

Implicit Types (n m l r : TreeMultimapNode V) (t : TreeMultimap V).

Lemma at_index_app (xs ys zs : list (TreeMultimapNode V)) x :
  at_index (xs ++ (ys ++ x :: zs)) (Z.of_nat (length xs) + Z.of_nat (length ys))
  = Some x.
Proof.
  unfold at_index.
  destruct (Z.ltb_spec (Z.of_nat (length xs) + Z.of_nat (length ys)) 0); [lia|].
  replace (Z.to_nat (Z.of_nat (length xs) + Z.of_nat (length ys)))
    with (length (xs ++ ys)) by (rewrite length_app; lia).
  rewrite app_assoc, nth_error_app2 by lia.
  now rewrite Nat.sub_diag.
Qed.

(** The calls made for a range are the elements of that range, each one
    once. *)
Lemma medianPreorder_Permutation (w : nat) :
  forall (sorted A B C : list (TreeMultimapNode V)) lo hi,
    length B = w ->
    sorted = A ++ B ++ C ->
    lo = Z.of_nat (length A) ->
    hi = lo + Z.of_nat (length B) - 1 ->
    Permutation (medianPreorder sorted lo hi) B.
Proof.
  induction w as [w IH] using lt_wf_ind.
  intros sorted A B C lo hi Hw Hs Hlo Hhi.
  rewrite medianPreorder_unfolded.
  destruct (Z_gt_dec lo hi) as [G|G].
  - destruct B; [reflexivity|cbn [length] in Hhi; lia].
  - pose proof (@midpoint_bounds lo hi) as Hm.
    set (j := Z.to_nat (midpoint lo hi - lo)).
    assert (Hj : lt j (length B)) by (unfold j; lia).
    destruct (nth_split B Absent Hj) as (B1 & B2 & HB & HB1).
    set (x := nth j B Absent) in *.
    assert (Hlen : length B = (length B1 + S (length B2))%nat).
    { rewrite HB at 1. rewrite length_app. reflexivity. }
    replace (midpoint lo hi) with (Z.of_nat (length A) + Z.of_nat (length B1))
      by (unfold j in HB1; lia).
    rewrite Hs, HB, <- app_assoc. cbn [app].
    rewrite at_index_app.
    apply Permutation_cons_app. apply Permutation_app.
    + apply (IH (length B1)) with (A := A) (C := x :: B2 ++ C); try lia.
      reflexivity.
    + apply (IH (length B2)) with (A := A ++ B1 ++ [x]) (C := C);
        rewrite ?length_app; cbn [length]; try lia.
      now rewrite <- !app_assoc.
Qed.

Lemma medianPreorder_all (sorted : list (TreeMultimapNode V)) :
  Permutation (medianPreorder sorted 0 (Z.of_nat (length sorted) - 1)) sorted.
Proof.
  apply (@medianPreorder_Permutation (length sorted) sorted [] sorted []);
    try reflexivity.
  now rewrite app_nil_r.
Qed.

Lemma root_add (e : BTNodeExemplar V) amount t :
  root (fst (add e amount t))
  = match exemplarToNode e amount with
    | None => root t
    | Some newNode => fst (insertNode newNode (root t))
    end.
Proof.
  unfold add, super_add.
  destruct (exemplarToNode e amount) as [newNode|]; [|reflexivity].
  destruct (insertNode newNode (root t)) as [r' [old|]]; reflexivity.
Qed.

Lemma exemplarToNode_createNode (e : BTNodeExemplar V) amount newNode :
  exemplarToNode e amount = Some newNode ->
  exists k v c, newNode = createNode k v c.
Proof.
  destruct e as [| |k v c|k|[| |k] v|]; cbn [exemplarToNode]; intros H;
    inversion H; eauto.
Qed.

Lemma root_addEntryToTree k v c t :
  root (addEntryToTree k v c t) = fst (insertNode (createNode k v c) (root t)).
Proof. unfold addEntryToTree. now rewrite root_add. Qed.

Lemma insertNode_inOrderIncreasing k v c n :
  inOrderIncreasing n ->
  inOrderIncreasing (fst (insertNode (createNode k v c) n)).
Proof.
  intros Ho. unfold inOrderIncreasing.
  rewrite keys_elements, elements_insertNode by assumption.
  apply insertPayload_sorted. fold (keysOf (elements n)).
  unfold keysOf. now rewrite <- keys_elements.
Qed.

(** Replaying nodes through [add] keeps the keys increasing and the tree
    balanced, and inserts the payloads one by one into the in-order
    sequence. *)
Lemma replay_invariants (nodes : list (TreeMultimapNode V)) t :
  inOrderIncreasing (root t) -> avlInvariant (root t) ->
  inOrderIncreasing (root (replay addEntryToTree nodes t)) /\
  avlInvariant (root (replay addEntryToTree nodes t)) /\
  elements (root (replay addEntryToTree nodes t))
  = insertAll (map payload nodes) (elements (root t)).
Proof.
  unfold replay, insertAll.
  revert t; induction nodes as [|x xs IH]; intros t Ho Ha; cbn [fold_left map].
  - auto.
  - unfold addMid at 2 4 6.
    destruct (IH (addEntryToTree (key_of x) (value_of x) (count_of x) t))
      as (H1 & H2 & H3).
    + rewrite root_addEntryToTree. now apply insertNode_inOrderIncreasing.
    + rewrite root_addEntryToTree. now apply insertNode_avl.
    + repeat split; [assumption..|].
      rewrite H3, root_addEntryToTree, elements_insertNode by assumption.
      reflexivity.
Qed.

(** C5: on a non-empty tree whose in-order keys increase, either variant
    of [perfectlyBalance] returns true and leaves a tree whose in-order
    walk gives the (key, count) pairs it gave before (the values too), and
    on which [isAVLBalanced()] answers true. *)
Theorem perfectlyBalance_round_trip (it : IterationType) t :
  root t <> Absent ->
  inOrderIncreasing (root t) ->
  exists t',
    perfectlyBalance it t = Some (t', true) /\
    dfs (fun m => (key_of m, count_of m)) (root t')
    = dfs (fun m => (key_of m, count_of m)) (root t) /\
    elements (root t') = elements (root t) /\
    isAVLBalanced t' = true.
Proof.
  intros Hne Ho. eexists. split; [now apply perfectlyBalance_replay|].
  destruct (@replay_invariants (medianPreorder (sortedNodes t) 0 (lastIndex t)) (clear t))
    as (_ & Ha & He); [constructor|exact I|].
  assert (Hel : elements (root (replay addEntryToTree
                  (medianPreorder (sortedNodes t) 0 (lastIndex t)) (clear t)))
                = elements (root t)).
  { rewrite He. cbn [clear root]. change (elements Absent) with (@nil (Z * option V * Z)).
    apply insertAll_of_permutation.
    - unfold keysOf. now rewrite <- keys_elements.
    - unfold elements at 1, dfs. apply Permutation_map.
      unfold lastIndex. rewrite medianPreorder_all.
      unfold sortedNodes. now rewrite dfs_id. }
  repeat split.
  - unfold elements, dfs in Hel.
    apply (f_equal (map (fun x : Z * option V * Z => (fst (fst x), snd x)))) in Hel.
    rewrite !map_map in Hel. exact Hel.
  - exact Hel.
  - unfold isAVLBalanced. now apply avlInvariant_isAVLBalanced.
Qed.

End RoundTrip.

(** ** [delete] and the in-order sequence *)

Section DeleteFacts.

Context {V : Type}.

Implicit Types (n m l r rt : TreeMultimapNode V) (t : TreeMultimap V) (p q : Path).

Lemma update_at_app p q f n :
  update_at (p ++ q) f n = update_at p (update_at q f) n.
Proof.
  revert n; induction p as [|s p IH]; intros n; [reflexivity|].
  destruct s, n; cbn [app update_at]; try reflexivity; now rewrite IH.
Qed.

Lemma update_at_twice p f g n :
  update_at p g (update_at p f n) = update_at p (fun c => g (f c)) n.
Proof.
  revert n; induction p as [|s p IH]; intros n; [reflexivity|].
  destruct s, n; cbn [update_at]; try reflexivity; now rewrite IH.
Qed.

Lemma update_at_setChild p s x n :
  update_at p (setChild s x) n = update_at (p ++ [s]) (fun _ => x) n.
Proof.
  revert n; induction p as [|s' p IH]; intros n.
  - destruct s, n; reflexivity.
  - destruct s', n; cbn [app update_at]; try reflexivity; now rewrite IH.
Qed.

Lemma parentOf_snoc p s : parentOf (p ++ [s]) = Some (p, s).
Proof.
  induction p as [|s' p IH]; [reflexivity|].
  cbn [app parentOf]. now rewrite IH.
Qed.

Lemma elements_update_at p n :
  is_present (subtree p n) = true ->
  exists front back,
    elements n = front ++ elements (subtree p n) ++ back /\
    forall f, elements (update_at p f n) = front ++ elements (f (subtree p n)) ++ back.
Proof.
  revert n; induction p as [|s p IH]; intros n Hp.
  - exists [], []. cbn [subtree update_at app]. split; [|intros f];
      now rewrite app_nil_r.
  - destruct n as [|l k v c h r]; [rewrite subtree_Absent in Hp; discriminate|].
    destruct s; cbn [subtree update_at] in *;
      destruct (IH _ Hp) as (front & back & H1 & H2).
    + exists front, (back ++ (k, v, c) :: elements r).
      split; [|intros f]; rewrite elements_Node, ?H1, ?H2, <- !app_assoc;
        reflexivity.
    + exists (elements l ++ (k, v, c) :: front), back.
      split; [|intros f]; rewrite elements_Node, ?H1, ?H2, <- !app_assoc;
        reflexivity.
Qed.

Lemma getRightMost_elements l :
  is_present l = true ->
  exists rl rk rv rc rh,
    subtree (getRightMost l) l = Node rl rk rv rc rh Absent /\
    elements l
    = elements (update_at (getRightMost l) (fun _ => rl) l) ++ [(rk, rv, rc)].
Proof.
  induction l as [|ll _ k v c h r IHr]; intros Hp; [discriminate|].
  destruct r as [|rl' rk' rv' rc' rh' rr'].
  - exists ll, k, v, c, h. cbn [getRightMost subtree update_at].
    split; [reflexivity|]. now rewrite elements_Node.
  - destruct (IHr eq_refl) as (rl & rk & rv & rc & rh & H1 & H2).
    exists rl, rk, rv, rc, rh.
    change (getRightMost (Node ll k v c h (Node rl' rk' rv' rc' rh' rr')))
      with (RIGHT :: getRightMost (Node rl' rk' rv' rc' rh' rr')).
    cbn [subtree update_at]. split; [assumption|].
    rewrite !elements_Node with (l := ll). rewrite H2 at 1.
    now rewrite <- app_assoc.
Qed.

(** The structural branch either leaves the root as it is (the node found
    is a root without children) or takes the payload of the node found
    out of the in-order sequence; the node object handed back as
    [deleted] carries that payload. *)
Lemma spliceOut_elements p rt :
  is_present (subtree p rt) = true ->
  payload (snd (fst (spliceOut p rt))) = payload (subtree p rt) /\
  ((p = [] /\ left_of rt = Absent /\ right_of rt = Absent /\
    fst (fst (spliceOut p rt)) = rt /\ snd (spliceOut p rt) = None)
   \/ dropsOne (payload (subtree p rt)) (elements rt)
               (elements (fst (fst (spliceOut p rt))))).
Proof.
  intros Hp. unfold spliceOut.
  destruct (elements_update_at _ _ Hp) as (front & back & He & Hu).
  destruct (subtree p rt) as [|cl ck cv cc ch cr] eqn:Hc; [discriminate|].
  cbn [left_of right_of].
  destruct cl as [|cll clk clv clc clh clr].
  - (* no left child *)
    destruct (parentOf p) as [[pp fp]|] eqn:Hpar.
    + cbn [fst snd]. split; [reflexivity|]. right.
      assert (p = pp ++ [fp]) as ->.
      { destruct (exists_last (l := p)) as (pp' & s' & ->);
          [intros ->; discriminate|].
        rewrite parentOf_snoc in Hpar. now inversion Hpar. }
      rewrite update_at_setChild, Hu.
      exists front, (elements cr ++ back). rewrite He, elements_Node.
      cbn [elements dfs inorder map app payload key_of value_of count_of].
      split; reflexivity.
    + destruct p; [|cbn [parentOf] in Hpar; destruct (parentOf p) as [[? ?]|];
                    discriminate].
      cbn [subtree] in Hc. subst rt. cbn [fst snd left_of right_of].
      split; [reflexivity|].
      destruct cr as [|crl crk crv crc crh crr]; cbn [is_present].
      * left. repeat split.
      * right. exists [], (elements (Node crl crk crv crc crh crr)).
        rewrite elements_Node. split; reflexivity.
  - (* in-order predecessor *)
    set (cl := Node cll clk clv clc clh clr) in *.
    destruct (@getRightMost_elements cl eq_refl)
      as (rl & rk & rv & rc & rh & Hrm & Hel).
    rewrite subtree_app, Hc. cbn [subtree]. rewrite Hrm.
    destruct (exists_last (l := p ++ LEFT :: getRightMost cl))
      as (pq & s & Hq); [destruct p; discriminate|].
    replace (parentOf (p ++ LEFT :: getRightMost cl)) with (Some (pq, s))
      by (rewrite Hq; symmetry; apply parentOf_snoc).
    cbn [fst snd _swapProperties left_of].
    split; [reflexivity|]. right.
    rewrite update_at_setChild, <- Hq, update_at_twice, update_at_app,
            update_at_twice, Hu.
    cbn [_swapProperties fst update_at].
    exists (front ++ elements (update_at (getRightMost cl) (fun _ => rl) cl)
                  ++ [(rk, rv, rc)]), (elements cr ++ back).
    rewrite He, !elements_Node. fold cl. rewrite Hel at 1.
    cbn [payload key_of value_of count_of].
    split; rewrite <- !app_assoc; reflexivity.
Qed.

Lemma dropsOne_sorted (x : Z * option V * Z) before after :
  dropsOne x before after ->
  StronglySorted Z.lt (keysOf before) -> StronglySorted Z.lt (keysOf after).
Proof.
  intros (front & back & -> & ->). unfold keysOf. rewrite !map_app. cbn [map].
  intros H. apply StronglySorted_app_inv in H as (Hf & Hb & Hfb).
  apply StronglySorted_inv in Hb as [Hb _].
  apply StronglySorted_app; try assumption.
  intros a b Ha Hb'. apply Hfb; [assumption|now right].
Qed.

Lemma dfs_key_set_count p c n :
  dfs key_of (update_at p (set_count c) n) = dfs key_of n.
Proof.
  pose proof (dfs_set_count p c n) as H.
  apply (f_equal (map fst)) in H. unfold dfs in *.
  rewrite !map_map in H. exact H.
Qed.

Lemma inOrderIncreasing_elements n :
  inOrderIncreasing n <-> StronglySorted Z.lt (keysOf (elements n)).
Proof. unfold inOrderIncreasing, keysOf. now rewrite keys_elements. Qed.

(** What [delete] does to the in-order keys: nothing, or one key less. *)
Lemma delete_keys (i : Identifier V) (ignoreCount : bool) t :
  dfs key_of (root (fst (delete i ignoreCount t))) = dfs key_of (root t) \/
  exists x, dropsOne x (elements (root t))
                     (elements (root (fst (delete i ignoreCount t)))).
Proof.
  unfold delete.
  destruct (root t) as [|l k v c h r] eqn:Hr;
    [left; cbn [fst]; now rewrite Hr|].
  destruct (getNode i (Node l k v c h r)) as [p|] eqn:Hg;
    [|left; cbn [fst]; now rewrite Hr].
  apply getNode_sound in Hg as [Hp _].
  destruct (_ && _).
  - left. cbn [fst root]. apply dfs_key_set_count.
  - destruct (spliceOut_elements _ _ Hp) as [_ Hs].
    destruct (spliceOut p (Node l k v c h r)) as [[rt' org] nb].
    cbn [fst snd root] in *.
    assert (He : elements (match nb with
                           | Some pb => _balancePath pb rt'
                           | None => rt'
                           end) = elements rt').
    { destruct nb; [apply elements__balancePath|reflexivity]. }
    destruct Hs as [(_ & _ & _ & -> & _)|Hs].
    + left. rewrite !keys_elements, He. reflexivity.
    + right. eexists. rewrite He. exact Hs.
Qed.

Lemma delete_inOrderIncreasing (i : Identifier V) (ignoreCount : bool) t :
  inOrderIncreasing (root t) ->
  inOrderIncreasing (root (fst (delete i ignoreCount t))).
Proof.
  intros Ho. destruct (delete_keys i ignoreCount t) as [H|[x H]].
  - unfold inOrderIncreasing. now rewrite H.
  - apply inOrderIncreasing_elements. eapply dropsOne_sorted; [exact H|].
    now apply inOrderIncreasing_elements.
Qed.

Lemma add_inOrderIncreasing (e : BTNodeExemplar V) amount t :
  inOrderIncreasing (root t) -> inOrderIncreasing (root (fst (add e amount t))).
Proof.
  intros Ho. rewrite root_add.
  destruct (exemplarToNode e amount) as [newNode|] eqn:He; [|assumption].
  apply exemplarToNode_createNode in He as (k & v & c & ->).
  now apply insertNode_inOrderIncreasing.
Qed.

Lemma addMany_inOrderIncreasing (es : list (BTNodeExemplar V)) t :
  inOrderIncreasing (root t) -> inOrderIncreasing (root (fst (addMany es t))).
Proof.
  revert t; induction es as [|e es IH]; intros t Ho; [assumption|].
  cbn [addMany].
  pose proof (@add_inOrderIncreasing e 1 t Ho) as H1.
  destruct (add e 1 t) as [t1 r1]. cbn [fst] in H1.
  specialize (IH t1 H1). destruct (addMany es t1) as [t2 rs]. exact IH.
Qed.

Lemma perfectlyBalance_empty (it : IterationType) t :
  root t = Absent -> perfectlyBalance it t = Some (t, false).
Proof. intros H. unfold perfectlyBalance. rewrite H. reflexivity. Qed.

(** C7: each public operation, started on a tree whose in-order keys are
    strictly increasing, ends on such a tree; [delete] in particular
    leaves the in-order keys as they were or takes exactly one of them
    out, the others keeping their order. *)
Theorem operations_keep_inorder_increasing t :
  inOrderIncreasing (root t) ->
  (forall (e : BTNodeExemplar V) amount,
      inOrderIncreasing (root (fst (add e amount t)))) /\
  (forall es : list (BTNodeExemplar V),
      inOrderIncreasing (root (fst (addMany es t)))) /\
  (forall (i : Identifier V) ignoreCount,
      inOrderIncreasing (root (fst (delete i ignoreCount t))) /\
      (dfs key_of (root (fst (delete i ignoreCount t))) = dfs key_of (root t) \/
       exists x, dropsOne x (elements (root t))
                          (elements (root (fst (delete i ignoreCount t)))))) /\
  (forall it : IterationType,
      exists t' b, perfectlyBalance it t = Some (t', b) /\
                   inOrderIncreasing (root t')) /\
  inOrderIncreasing (root (clear t)).
Proof.
  intros Ho. repeat split.
  - intros e amount. now apply add_inOrderIncreasing.
  - intros es. now apply addMany_inOrderIncreasing.
  - now apply delete_inOrderIncreasing.
  - apply delete_keys.
  - intros it. destruct (root t) as [|l k v c h r] eqn:Hr.
    + exists t, false. split; [now apply perfectlyBalance_empty|].
      now rewrite Hr.
    + do 2 eexists. split.
      * apply perfectlyBalance_replay. rewrite Hr. discriminate.
      * apply replay_invariants; [constructor|exact I].
  - constructor.
Qed.

End DeleteFacts.

(** ** [size] and [_count] *)

Section Bookkeeping.

Context {V : Type}.

Implicit Types (n m l r rt : TreeMultimapNode V) (t : TreeMultimap V) (p q : Path).

Lemma sumCounts_app (xs ys : list (Z * option V * Z)) :
  sumCounts (xs ++ ys) = sumCounts xs + sumCounts ys.
Proof.
  induction xs as [|x xs IH]; cbn [app sumCounts]; lia.
Qed.

Lemma count_elements n : subTreeSum count_of n = sumCounts (elements n).
Proof.
  induction n as [|l IHl k v c h r IHr]; [reflexivity|].
  rewrite elements_Node, sumCounts_app. cbn [subTreeSum count_of sumCounts snd].
  lia.
Qed.

Lemma node_number_elements n : node_number n = Z.of_nat (length (elements n)).
Proof.
  induction n as [|l IHl k v c h r IHr]; [reflexivity|].
  rewrite elements_Node, length_app. cbn [node_number length]. lia.
Qed.

Lemma dropsOne_totals (x : Z * option V * Z) before after :
  dropsOne x before after ->
  sumCounts after = sumCounts before - snd x /\
  Z.of_nat (length after) = Z.of_nat (length before) - 1.
Proof.
  intros (front & back & -> & ->).
  rewrite !sumCounts_app, !length_app. cbn [sumCounts length]. split; lia.
Qed.

(** [delete] keeps [size] and [_count] right, except when the node it
    finds is a root without children and has to go: then the root stays
    and the two fields are lowered all the same. *)
Lemma delete_bookkeeping (i : Identifier V) (ignoreCount : bool) t :
  bookkeeping t ->
  bookkeeping (fst (delete i ignoreCount t)) \/
  (getNode i (root t) = Some [] /\
   left_of (root t) = Absent /\ right_of (root t) = Absent /\
   ((1 <? count_of (root t)) && negb ignoreCount = false) /\
   root (fst (delete i ignoreCount t)) = root t /\
   size (fst (delete i ignoreCount t)) = size t - 1 /\
   _count (fst (delete i ignoreCount t)) = _count t - count_of (root t)).
Proof.
  intros [Hs Hc]. unfold bookkeeping, count in *. unfold delete.
  destruct (root t) as [|l k v c h r] eqn:Hr;
    [left; cbn [fst]; rewrite Hr; split; assumption|].
  destruct (getNode i (Node l k v c h r)) as [p|] eqn:Hg;
    [|left; cbn [fst]; rewrite Hr; split; assumption].
  pose proof (getNode_sound _ _ Hg) as [Hp _].
  destruct (_ && _) eqn:Hb.
  - left. cbn [fst root size _count].
    rewrite subTreeSum_set_count by assumption.
    rewrite (node_number_shape _ _ (shape_set_count p _ _)).
    split; [assumption|lia].
  - destruct (spliceOut_elements _ _ Hp) as [Hpay Hsp].
    destruct (spliceOut p (Node l k v c h r)) as [[rt' org] nb].
    cbn [fst snd root size _count] in *.
    assert (He : elements (match nb with
                           | Some pb => _balancePath pb rt'
                           | None => rt'
                           end) = elements rt').
    { destruct nb; [apply elements__balancePath|reflexivity]. }
    assert (Hco : count_of org = count_of (subtree p (Node l k v c h r))).
    { unfold payload in Hpay. now inversion Hpay. }
    destruct Hsp as [(-> & Hl & Hrr & -> & ->)|Hd].
    + right. cbn [subtree] in *. rewrite Hco. repeat split; assumption.
    + left. apply dropsOne_totals in Hd as [H1 H2].
      rewrite !node_number_elements, !count_elements, He in *.
      cbn [payload snd] in H1. split; lia.
Qed.

Lemma clear_bookkeeping t : bookkeeping (clear t).
Proof. split; reflexivity. Qed.

End Bookkeeping.

(** ** The theorems at work on sample trees *)

Lemma smallTree_increasing : inOrderIncreasing (root smallTree).
Proof. unfold inOrderIncreasing. vm_compute. repeat constructor. Qed.

Lemma sampleTree_increasing : inOrderIncreasing (root sampleTree).
Proof. unfold inOrderIncreasing. vm_compute. repeat constructor. Qed.

Lemma smallTree_present : root smallTree <> Absent.
Proof. vm_compute. discriminate. Qed.

Lemma sampleTree_present : root sampleTree <> Absent.
Proof. vm_compute. discriminate. Qed.

(** [delete(999)] on the tree holding 1, 2 and 3. *)
Lemma delete_unmatched_is_noop_witness :
  delete (ByKey 999) false smallTree = (smallTree, []).
Proof.
  apply (@delete_unmatched_is_noop Z (ByKey 999) false smallTree).
  intros m H. vm_compute in H.
  repeat (destruct H as [<-|H]; [reflexivity|]). destruct H.
Defined.


(** [add(3, 4)] on the tree where 3 has count 2. *)
Lemma add_existing_key_bumps_count_witness :
  exists p,
    getNodeByKey 3 (root smallTree) = Some p /\
    size (fst (add (ExKey 3) 4 smallTree)) = size smallTree /\
    count (fst (add (ExKey 3) 4 smallTree)) = count smallTree + 4.
Proof.
  destruct (@add_existing_key_bumps_count Z smallTree (ExKey 3) 3 None 4)
    as (p & Hp & _ & _ & _ & _ & _ & Hs & _ & Hc & _).
  - exact smallTree_increasing.
  - vm_compute. right. right. left. reflexivity.
  - reflexivity.
  - split; vm_compute; discriminate.
  - exists p. repeat split; assumption.
Defined.

(** [add(1, 2 ** 53)] on the tree where 1 has count 1: the key is there,
    the in-order keys increase, and the node ends with count 2^53, which
    is not the old count increased by the amount. *)
Lemma add_existing_key_rounds_count :
  inOrderIncreasing (root smallTree) /\
  In 1 (dfs key_of (root smallTree)) /\
  getNodeByKey 1 (root smallTree) = Some [LEFT] /\
  count_of (subtree [LEFT] (root smallTree)) = 1 /\
  count_of (subtree [LEFT] (root (fst (add (ExKey 1) (2 ^ 53) smallTree)))) = 2 ^ 53 /\
  count_of (subtree [LEFT] (root (fst (add (ExKey 1) (2 ^ 53) smallTree))))
  <> count_of (subtree [LEFT] (root smallTree)) + 2 ^ 53.
Proof.
  split; [exact smallTree_increasing|].
  split; [vm_compute; left; reflexivity|].
  repeat split; try (vm_compute; reflexivity).
  vm_compute. discriminate.
Qed.

(** [perfectlyBalance()] on the sixteen-key tree. *)
Lemma perfectlyBalance_round_trip_witness :
  exists t',
    perfectlyBalance RECURSIVE sampleTree = Some (t', true) /\
    dfs (fun m => (key_of m, count_of m)) (root t')
    = dfs (fun m => (key_of m, count_of m)) (root sampleTree) /\
    isAVLBalanced t' = true.
Proof.
  destruct (@perfectlyBalance_round_trip Z RECURSIVE sampleTree)
    as (t' & H1 & H2 & _ & H3).
  - exact sampleTree_present.
  - exact sampleTree_increasing.
  - exists t'. repeat split; assumption.
Defined.

Lemma operations_keep_inorder_increasing_witness :
  inOrderIncreasing (root (fst (delete (ByKey 2) false smallTree))).
Proof.
  destruct (@operations_keep_inorder_increasing Z smallTree)
    as (_ & _ & Hd & _).
  - exact smallTree_increasing.
  - apply (Hd (ByKey 2) false).
Defined.

Lemma perfectlyBalance_variants_same_content_witness :
  exists tr ti,
    perfectlyBalance RECURSIVE sampleTree = Some (tr, true) /\
    perfectlyBalance ITERATIVE sampleTree = Some (ti, true) /\
    dfs key_of (root tr) = dfs key_of (root ti) /\
    count tr = count ti.
Proof.
  destruct (@perfectlyBalance_variants_same_content Z sampleTree)
    as (tr & ti & H1 & H2 & H3 & _ & H4 & _).
  - exact sampleTree_present.
  - exists tr, ti. repeat split; assumption.
Defined.

Lemma perfectlyBalance_variants_same_calls_witness :
  exists calls t',
    addCalls RECURSIVE sampleTree = Some calls /\
    addCalls ITERATIVE sampleTree = Some calls /\
    perfectlyBalance RECURSIVE sampleTree = Some (t', true) /\
    perfectlyBalance ITERATIVE sampleTree = Some (t', true).
Proof.
  destruct (@perfectlyBalance_variants_same_calls Z sampleTree)
    as (calls & t' & _ & H1 & H2 & _ & H3 & H4).
  - exact sampleTree_present.
  - exists calls, t'. repeat split; assumption.
Defined.

(** * Further properties of the code *)

(** ** The structural branch of [delete] *)

Section StructuralDelete.

Context {V : Type}.

Implicit Types (n m l r rt : TreeMultimapNode V) (t : TreeMultimap V) (p q : Path).

Lemma dropsOne_keys (x : Z * option V * Z) before after :
  dropsOne x before after ->
  StronglySorted Z.lt (keysOf before) ->
  ~ In (fst (fst x)) (keysOf after) /\
  (forall k, k <> fst (fst x) -> In k (keysOf before) <-> In k (keysOf after)).
Proof.
  intros (front & back & -> & ->) Hs. unfold keysOf in *.
  rewrite !map_app in *. cbn [map] in Hs.
  apply StronglySorted_app_inv in Hs as (_ & Hb & Hfb).
  apply StronglySorted_inv in Hb as [_ Hb]. rewrite Forall_forall in Hb.
  split.
  - intros H. apply in_app_or in H as [H|H].
    + specialize (Hfb _ (fst (fst x)) H (or_introl eq_refl)). lia.
    + specialize (Hb _ H). lia.
  - intros k Hk. rewrite !in_app_iff. cbn [map In]. split.
    + intros [H|[H|H]]; auto. congruence.
    + intros [H|H]; auto.
Qed.


(** X2: the structural branch, up to the point where the rebalancing walk
    starts, takes exactly the payload of the node found out of the in-order
    sequence and leaves every other payload where it was, so the tree has
    one node less.  The one exception is a node that is the root and has
    no child. *)
Theorem spliceOut_takes_one_payload p rt :
  is_present (subtree p rt) = true ->
  p <> [] \/ left_of rt <> Absent \/ right_of rt <> Absent ->
  dropsOne (payload (subtree p rt)) (elements rt)
           (elements (fst (fst (spliceOut p rt)))) /\
  node_number (fst (fst (spliceOut p rt))) = node_number rt - 1.
Proof.
  intros Hp Hex.
  destruct (spliceOut_elements _ _ Hp) as [_ [(H1 & H2 & H3 & _)|Hd]].
  - exfalso. destruct Hex as [H|[H|H]]; auto.
  - split; [assumption|].
    apply dropsOne_totals in Hd as [_ Hd].
    rewrite !node_number_elements. lia.
Qed.

(** X3: on a tree whose in-order keys are strictly increasing, the
    structural branch leaves them strictly increasing (the predecessor
    relocation included, before any rebalancing); unless the node found is
    a root without children, its key no longer occurs and every other key
    still does. *)
Theorem spliceOut_keeps_order p rt :
  is_present (subtree p rt) = true ->
  inOrderIncreasing rt ->
  inOrderIncreasing (fst (fst (spliceOut p rt))) /\
  (p <> [] \/ left_of rt <> Absent \/ right_of rt <> Absent ->
   ~ In (key_of (subtree p rt)) (dfs key_of (fst (fst (spliceOut p rt)))) /\
   forall k, k <> key_of (subtree p rt) ->
             In k (dfs key_of rt) <-> In k (dfs key_of (fst (fst (spliceOut p rt))))).
Proof.
  intros Hp Ho.
  destruct (spliceOut_elements _ _ Hp) as [_ Hs].
  apply inOrderIncreasing_elements in Ho.
  split.
  - destruct Hs as [(_ & _ & _ & -> & _)|Hd].
    + now apply inOrderIncreasing_elements.
    + apply inOrderIncreasing_elements. eapply dropsOne_sorted; eassumption.
  - intros Hex. destruct Hs as [(H1 & H2 & H3 & _)|Hd].
    + exfalso. destruct Hex as [H|[H|H]]; auto.
    + rewrite !keys_elements.
      apply (dropsOne_keys Hd Ho).
Qed.

End StructuralDelete.

(** ** What [perfectlyBalance] does for any tree *)

Section RebuildCalls.

Context {V : Type}.

Implicit Types (t : TreeMultimap V).

(** X4: [perfectlyBalance] never reads outside the array it collected:
    with either variant it returns normally, the answer is [true] exactly
    when the tree had a node, and an empty tree is handed back as it
    was. *)
Theorem perfectlyBalance_answers (it : IterationType) t :
  exists t',
    perfectlyBalance it t = Some (t', is_present (root t)) /\
    (root t = Absent -> t' = t).
Proof.
  destruct (root t) as [|l k v c h r] eqn:Hr.
  - exists t. split; [|reflexivity].
    apply perfectlyBalance_empty. assumption.
  - eexists. split.
    + apply perfectlyBalance_replay. rewrite Hr. discriminate.
    + discriminate.
Qed.

(** X5: with either variant, the [add] calls of a rebuild are the payloads
    of the nodes the tree had, each node once: as many calls as nodes, in
    an order that is a rearrangement of the in-order sequence. *)
Theorem addCalls_each_node_once (it : IterationType) t :
  exists calls,
    addCalls it t = Some calls /\
    Permutation calls (elements (root t)) /\
    Z.of_nat (length calls) = node_number (root t).
Proof.
  eexists. split; [apply addCalls_medianPreorder|].
  assert (Hp : Permutation
                 (map payload (medianPreorder (sortedNodes t) 0 (lastIndex t)))
                 (elements (root t))).
  { unfold elements, dfs. apply Permutation_map.
    unfold lastIndex. rewrite medianPreorder_all.
    unfold sortedNodes. now rewrite dfs_id. }
  split; [assumption|].
  rewrite (Permutation_length Hp). symmetry. apply node_number_elements.
Qed.

End RebuildCalls.

(** ** [_addTo] and [_swapProperties] *)

Section LinkingAndSwapping.

Context {V : Type}.

Implicit Types (n m l r rt newNode : TreeMultimapNode V) (t : TreeMultimap V) (p q : Path).

Lemma update_at_same p f n :
  f (subtree p n) = subtree p n -> update_at p f n = n.
Proof.
  revert n; induction p as [|s p IH]; intros n H; [exact H|].
  destruct s, n; cbn [update_at subtree] in *; try reflexivity;
    now rewrite IH.
Qed.

Lemma tree_eta t : mkTree (root t) (size t) (_count t) = t.
Proof. destruct t; reflexivity. Qed.


(** The in-order sequence after a node was hung into a free slot. *)
Lemma elements_setChild p s newNode rt front back :
  elements rt = front ++ elements (subtree p rt) ++ back ->
  (forall f, elements (update_at p f rt) = front ++ elements (f (subtree p rt)) ++ back) ->
  match s with LEFT => left_of (subtree p rt) | RIGHT => right_of (subtree p rt) end
  = Absent ->
  is_present (subtree p rt) = true ->
  elements (update_at p (setChild s newNode) rt)
  = match s with
    | LEFT => front ++ elements newNode ++ elements (subtree p rt) ++ back
    | RIGHT => front ++ elements (subtree p rt) ++ elements newNode ++ back
    end.
Proof.
  intros He Hu Hfree Hp. rewrite Hu.
  destruct (subtree p rt) as [|l k v c h r]; [discriminate|].
  destruct s; cbn [left_of right_of] in Hfree; subst; cbn [setChild];
    rewrite !elements_Node; cbn [elements dfs inorder map app];
    rewrite <- ?app_assoc; cbn [app]; reflexivity.
Qed.


(** X7: [_addTo] never overwrites a child and never looks at the keys.
    When it returns [undefined] the tree is untouched (no parent, both
    slots taken, or nothing to link).  Otherwise it returns the node
    handed in, and in the in-order sequence the new subtree sits directly
    before the parent's subtree when the left slot was free, and directly
    behind it when only the right slot was; everything else keeps its
    place. *)
Theorem _addTo_places_beside_parent newNode (parent : option Path) t :
  (snd (_addTo newNode parent t) = Absent -> fst (_addTo newNode parent t) = t) /\
  (snd (_addTo newNode parent t) <> Absent ->
   snd (_addTo newNode parent t) = newNode /\
   exists p front back,
     parent = Some p /\
     elements (root t) = front ++ elements (subtree p (root t)) ++ back /\
     elements (root (fst (_addTo newNode parent t)))
     = match left_of (subtree p (root t)) with
       | Absent => front ++ elements newNode ++ elements (subtree p (root t)) ++ back
       | Node _ _ _ _ _ _ =>
           front ++ elements (subtree p (root t)) ++ elements newNode ++ back
       end).
Proof.
  unfold _addTo.
  destruct parent as [p|]; [|split; [reflexivity|intros H; now elim H]].
  destruct (subtree p (root t)) as [|pl pk pv pc ph pr] eqn:Hsub;
    [split; [reflexivity|intros H; now elim H]|].
  assert (Hp : is_present (subtree p (root t)) = true) by now rewrite Hsub.
  destruct (elements_update_at _ _ Hp) as (front & back & He & Hu).
  destruct pl as [|pll plk plv plc plh plr].
  - cbn [fst snd]. split.
    + intros ->. cbn [is_present]. rewrite update_at_same.
      * apply tree_eta.
      * now rewrite Hsub.
    + intros Hn. split; [reflexivity|]. exists p, front, back.
      split; [reflexivity|]. split; [exact He|].
      pose proof (@elements_setChild p LEFT newNode (root t) front back He Hu) as E.
      rewrite Hsub in E. specialize (E eq_refl eq_refl).
      rewrite Hsub. cbn [left_of].
      destruct (is_present newNode); cbn [root]; exact E.
  - destruct pr as [|prl prk prv prc prh prr];
      [|split; [reflexivity|intros H; now elim H]].
    cbn [fst snd]. split.
    + intros ->. cbn [is_present]. rewrite update_at_same.
      * apply tree_eta.
      * now rewrite Hsub.
    + intros Hn. split; [reflexivity|]. exists p, front, back.
      split; [reflexivity|]. split; [exact He|].
      pose proof (@elements_setChild p RIGHT newNode (root t) front back He Hu) as E.
      rewrite Hsub in E. specialize (E eq_refl eq_refl).
      rewrite Hsub. cbn [left_of].
      destruct (is_present newNode); cbn [root]; exact E.
Qed.

(** X8: [_swapProperties] exchanges key, value, count and height of two
    nodes and leaves the links of both alone; swapping the same two nodes
    again gives back the nodes one started with.  With an [undefined]
    operand nothing changes. *)
Theorem _swapProperties_twice (srcNode destNode : TreeMultimapNode V) :
  let swapped := _swapProperties srcNode destNode in
  _swapProperties (fst swapped) (snd swapped) = (srcNode, destNode) /\
  shape (fst swapped) = shape srcNode /\
  left_of (fst swapped) = left_of srcNode /\
  right_of (fst swapped) = right_of srcNode /\
  left_of (snd swapped) = left_of destNode /\
  right_of (snd swapped) = right_of destNode /\
  (is_present srcNode = true -> is_present destNode = true ->
   payload (fst swapped) = payload destNode /\
   payload (snd swapped) = payload srcNode /\
   height_of (fst swapped) = height_of destNode /\
   height_of (snd swapped) = height_of srcNode) /\
  (is_present srcNode = false \/ is_present destNode = false ->
   swapped = (srcNode, destNode)).
Proof.
  destruct srcNode as [|sl sk sv sc sh sr], destNode as [|dl dk dv dc dh dr];
    cbn; repeat split; try discriminate; intros [H|H]; discriminate.
Qed.

End LinkingAndSwapping.

(** ** Removing occurrences one at a time or all at once *)

Section DeleteComposition.

Context {V : Type}.

Implicit Types (n m l r rt : TreeMultimapNode V) (t : TreeMultimap V) (p q : Path).







End DeleteComposition.

(** ** A rebuild only looks at the content *)

Section RebuildContent.

Context {V : Type}.

Implicit Types (t : TreeMultimap V).

Lemma at_index_payload (s1 s2 : list (TreeMultimapNode V)) m :
  map payload s1 = map payload s2 ->
  option_map payload (at_index s1 m) = option_map payload (at_index s2 m).
Proof.
  intros H. unfold at_index. destruct (m <? 0); [reflexivity|].
  rewrite <- !nth_error_map, H. reflexivity.
Qed.

Lemma medianPreorder_payloads (s1 s2 : list (TreeMultimapNode V)) :
  map payload s1 = map payload s2 ->
  forall lo hi,
    map payload (medianPreorder s1 lo hi) = map payload (medianPreorder s2 lo hi).
Proof.
  intros H lo hi.
  remember (span lo hi) as w eqn:Hw. revert lo hi Hw.
  induction w as [w IH] using lt_wf_ind; intros lo hi Hw.
  rewrite (medianPreorder_unfolded s1 lo hi), (medianPreorder_unfolded s2 lo hi).
  destruct (Z_gt_dec lo hi) as [G|G]; [reflexivity|].
  pose proof (@midpoint_bounds lo hi) as Hm.
  pose proof (@at_index_payload s1 s2 (midpoint lo hi) H) as Ha.
  destruct (at_index s1 (midpoint lo hi)) as [x1|],
           (at_index s2 (midpoint lo hi)) as [x2|];
    cbn [option_map] in Ha; try discriminate; [|reflexivity].
  cbn [map]. rewrite !map_app.
  assert (Hx : payload x1 = payload x2) by congruence.
  rewrite Hx. f_equal. f_equal.
  - apply (IH (span lo (midpoint lo hi - 1))); [|reflexivity].
    subst w. unfold span. lia.
  - apply (IH (span (midpoint lo hi + 1) hi)); [|reflexivity].
    subst w. unfold span. lia.
Qed.

(** X10: what [perfectlyBalance] leaves depends only on the in-order
    sequence of (key, value, count) it collected: two non-empty trees with
    the same sequence, whatever their shapes, sizes and [_count] fields,
    are rebuilt into the same tree, and that with either variant. *)
Theorem perfectlyBalance_depends_on_content (it it' : IterationType) t1 t2 :
  root t1 <> Absent ->
  elements (root t1) = elements (root t2) ->
  perfectlyBalance it t1 = perfectlyBalance it' t2.
Proof.
  intros Hne He.
  assert (Hne2 : root t2 <> Absent).
  { intros H2. rewrite H2 in He. destruct (root t1) as [|l k v c h r];
      [congruence|].
    rewrite elements_Node in He. destruct (elements l); discriminate. }
  rewrite !perfectlyBalance_replay by assumption.
  rewrite !replay_payloads.
  assert (Hs : map payload (sortedNodes t1) = map payload (sortedNodes t2)).
  { unfold sortedNodes. rewrite !dfs_id. exact He. }
  assert (Hl : lastIndex t1 = lastIndex t2).
  { unfold lastIndex.
    rewrite <- (length_map payload (sortedNodes t1)),
            <- (length_map payload (sortedNodes t2)), Hs.
    reflexivity. }
  rewrite Hl, (@medianPreorder_payloads _ _ Hs). reflexivity.
Qed.

End RebuildContent.

(** ** UndirectedGraph: adjacency lists *)

Section UndirectedGraphFacts.

Variable G : AbstractGraph.
Variable E : Type.

Implicit Types (m : EdgeMap G E) (e edge : UndirectedEdge E) (v u : Vertex G).

Lemma totalDegree_mapPush v e m :
  totalDegree (mapPush v e m) = totalDegree m + 1.
Proof.
  induction m as [|[k es] m IH]; cbn [mapPush totalDegree fold_right snd length].
  - lia.
  - destruct (sameVertex G k v); cbn [totalDegree fold_right snd].
    + rewrite length_app. cbn [length]. fold (totalDegree m). lia.
    + fold (totalDegree (mapPush v e m)). fold (totalDegree m). lia.
Qed.

Lemma mapGet_mapPush_same v e m :
  decidesIdentity G ->
  mapGet v (mapPush v e m)
  = Some (match mapGet v m with Some es => es ++ [e] | None => [e] end).
Proof.
  intros Hd. assert (Hv : sameVertex G v v = true) by now apply Hd.
  induction m as [|[k es] m IH]; cbn [mapPush mapGet].
  - now rewrite Hv.
  - destruct (sameVertex G k v) eqn:Hk; cbn [mapGet]; rewrite Hk; auto.
Qed.

Lemma mapGet_mapPush_other v u e m :
  decidesIdentity G -> v <> u ->
  mapGet u (mapPush v e m) = mapGet u m.
Proof.
  intros Hd Hne.
  assert (Hvu : sameVertex G v u = false).
  { destruct (sameVertex G v u) eqn:H; [|reflexivity].
    apply Hd in H. contradiction. }
  induction m as [|[k es] m IH]; cbn [mapPush mapGet].
  - now rewrite Hvu.
  - destruct (sameVertex G k v) eqn:Hk; cbn [mapGet].
    + apply Hd in Hk. subst k. now rewrite Hvu.
    + destruct (sameVertex G k u); auto.
Qed.

(** X11: [addEdge] answers [true] exactly when both ends are known
    vertices, and then the adjacency lists hold two entries more.  It does
    not undo what it did when it gives up: with the first end unknown the
    map is untouched, but with only the second end unknown the edge has
    already been pushed onto the first end's list although the answer is
    [false]. *)
Theorem addEdge_total_degree edge m :
  (snd (addEdge edge m) = true <->
   _getVertex G (fst (vertices edge)) <> None /\
   _getVertex G (snd (vertices edge)) <> None) /\
  totalDegree (fst (addEdge edge m))
  = totalDegree m
    + match _getVertex G (fst (vertices edge)), _getVertex G (snd (vertices edge)) with
      | None, _ => 0
      | Some _, None => 1
      | Some _, Some _ => 2
      end /\
  (_getVertex G (fst (vertices edge)) = None -> fst (addEdge edge m) = m).
Proof.
  unfold addEdge.
  destruct (_getVertex G (fst (vertices edge))) as [a|];
    [destruct (_getVertex G (snd (vertices edge))) as [b|]|];
    cbn [fst snd]; rewrite ?totalDegree_mapPush; repeat split;
    try lia; try discriminate; try congruence; intros [H1 H2]; congruence.
Qed.

Lemma mapGet_addEdge edge m end1 end2 vx :
  decidesIdentity G ->
  _getVertex G (fst (vertices edge)) = Some end1 ->
  _getVertex G (snd (vertices edge)) = Some end2 ->
  mapGet vx (fst (addEdge edge m))
  = match mapGet vx m with
    | Some es =>
        Some (es ++ (if sameVertex G vx end1 then [edge] else [])
                 ++ (if sameVertex G vx end2 then [edge] else []))
    | None =>
        if sameVertex G vx end1 || sameVertex G vx end2
        then Some ((if sameVertex G vx end1 then [edge] else [])
                   ++ (if sameVertex G vx end2 then [edge] else []))
        else None
    end.
Proof.
  intros Hd H1 H2.
  unfold addEdge. rewrite H1, H2. cbn [fst].
  destruct (sameVertex G vx end1) eqn:E1, (sameVertex G vx end2) eqn:E2;
    try (apply Hd in E1; subst end1); try (apply Hd in E2; subst end2);
    cbn [orb app].
  - rewrite !mapGet_mapPush_same by assumption.
    destruct (mapGet vx m); [now rewrite <- app_assoc|reflexivity].
  - rewrite mapGet_mapPush_other, mapGet_mapPush_same; try assumption.
    + destruct (mapGet vx m); reflexivity.
    + intros ->. assert (sameVertex G vx vx = true) by now apply Hd. congruence.
  - rewrite mapGet_mapPush_same, mapGet_mapPush_other; try assumption.
    + destruct (mapGet vx m); reflexivity.
    + intros ->. assert (sameVertex G vx vx = true) by now apply Hd. congruence.
  - rewrite !mapGet_mapPush_other; try assumption.
    + destruct (mapGet vx m); [now rewrite app_nil_r|reflexivity].
    + intros ->. assert (sameVertex G vx vx = true) by now apply Hd. congruence.
    + intros ->. assert (sameVertex G vx vx = true) by now apply Hd. congruence.
Qed.

(** X12: when both ends are known, [addEdge] lengthens the list of each
    end by this edge (twice for an edge from a vertex to itself) and leaves
    the list of every other vertex as it was; so [degreeOf] grows by the
    number of ends of the edge that sit on the vertex asked about. *)
Theorem addEdge_degrees edge m end1 end2 :
  decidesIdentity G ->
  _getVertex G (fst (vertices edge)) = Some end1 ->
  _getVertex G (snd (vertices edge)) = Some end2 ->
  forall x vx,
    _getVertex G x = Some vx ->
    edgesOf x (fst (addEdge edge m))
    = edgesOf x m
      ++ (if sameVertex G vx end1 then [edge] else [])
      ++ (if sameVertex G vx end2 then [edge] else []) /\
    degreeOf x (fst (addEdge edge m))
    = degreeOf x m
      + (if sameVertex G vx end1 then 1 else 0)
      + (if sameVertex G vx end2 then 1 else 0).
Proof.
  intros Hd H1 H2 x vx Hx.
  unfold edgesOf, degreeOf. rewrite Hx.
  rewrite (@mapGet_addEdge edge m end1 end2 vx Hd H1 H2).
  destruct (mapGet vx m) as [es|];
    destruct (sameVertex G vx end1), (sameVertex G vx end2);
    cbn [orb app length]; rewrite ?length_app; cbn [length]; split;
    try reflexivity; lia.
Qed.

(** X13: for two known vertices, [getEdge] answers with an edge exactly
    when some edge in the first vertex's list has the [id] of the second
    among its two ends, and the edge it answers with is such an edge.  With
    [null] for either argument, or an unknown vertex, it answers [null]. *)
Theorem getEdge_finds_connecting_edge (v1 v2 : option VertexId) m :
  (forall e, getEdge v1 v2 m = Some e ->
     exists a b vertex2,
       v1 = Some a /\ v2 = Some b /\ _getVertex G b = Some vertex2 /\
       In e (edgesOf a m) /\ includes e (vertexId G vertex2) = true) /\
  (forall a b vertex1 vertex2 e,
     v1 = Some a -> v2 = Some b ->
     _getVertex G a = Some vertex1 -> _getVertex G b = Some vertex2 ->
     In e (edgesOf a m) -> includes e (vertexId G vertex2) = true ->
     getEdge v1 v2 m <> None) /\
  (v1 = None \/ v2 = None -> getEdge v1 v2 m = None) /\
  (forall a b, v1 = Some a -> v2 = Some b ->
     _getVertex G a = None \/ _getVertex G b = None -> getEdge v1 v2 m = None).
Proof.
  repeat split.
  - intros e He. unfold getEdge in He.
    destruct v1 as [a|]; [|discriminate]. destruct v2 as [b|]; [|discriminate].
    destruct (_getVertex G a) as [vertex1|] eqn:Ha; [|discriminate].
    destruct (_getVertex G b) as [vertex2|] eqn:Hb; [|discriminate].
    destruct (mapGet vertex1 m) as [es|] eqn:Hm; [|discriminate].
    destruct (filter _ es) as [|e' es'] eqn:Hf; [discriminate|].
    inversion He; subst e'.
    assert (Hin : In e (filter (fun e0 => includes e0 (vertexId G vertex2)) es))
      by (rewrite Hf; now left).
    apply filter_In in Hin as [Hin Hinc].
    exists a, b, vertex2.
    split; [reflexivity|]. split; [reflexivity|]. split; [assumption|].
    split; [|assumption]. unfold edgesOf. now rewrite Ha, Hm.
  - intros a b vertex1 vertex2 e -> -> Ha Hb Hin Hinc.
    unfold edgesOf in Hin. rewrite Ha in Hin.
    unfold getEdge. rewrite Ha, Hb.
    destruct (mapGet vertex1 m) as [es|]; [|destruct Hin].
    assert (Hf : In e (filter (fun e0 => includes e0 (vertexId G vertex2)) es))
      by (apply filter_In; split; assumption).
    destruct (filter _ es); [destruct Hf|discriminate].
  - intros [->| ->]; [reflexivity|]. destruct v1; reflexivity.
  - intros a b -> -> [H|H]; unfold getEdge; rewrite H; [reflexivity|].
    destruct (_getVertex G a); reflexivity.
Qed.

(** X14: after an [addEdge] between two known vertices, [getEdge] on the
    same two ids finds an edge, provided the vertex stored for the second
    id carries that id; it is the edge just added unless the first end
    already had an earlier edge with that id among its ends. *)
Theorem getEdge_after_addEdge edge m end1 end2 :
  decidesIdentity G ->
  _getVertex G (fst (vertices edge)) = Some end1 ->
  _getVertex G (snd (vertices edge)) = Some end2 ->
  vertexId G end2 = snd (vertices edge) ->
  exists found,
    getEdge (Some (fst (vertices edge))) (Some (snd (vertices edge)))
            (fst (addEdge edge m)) = Some found /\
    includes found (snd (vertices edge)) = true /\
    (getEdge (Some (fst (vertices edge))) (Some (snd (vertices edge))) m = None ->
     found = edge).
Proof.
  intros Hd H1 H2 Hid.
  pose proof (@mapGet_addEdge edge m end1 end2 end1 Hd H1 H2) as Hget.
  assert (Hs : sameVertex G end1 end1 = true) by now apply Hd.
  rewrite Hs in Hget. cbn [orb] in Hget.
  assert (Hinc : includes edge (snd (vertices edge)) = true).
  { unfold includes. rewrite Z.eqb_refl. apply orb_true_r. }
  unfold getEdge. rewrite H1, H2, Hid, Hget.
  set (old := match mapGet end1 m with Some es => es | None => [] end).
  replace (match mapGet end1 m with
           | Some es =>
               Some (es ++ [edge] ++ (if sameVertex G end1 end2 then [edge] else []))
           | None => Some ([edge] ++ (if sameVertex G end1 end2 then [edge] else []))
           end)
    with (Some (old ++ [edge] ++ (if sameVertex G end1 end2 then [edge] else [])))
    by (unfold old; destruct (mapGet end1 m); reflexivity).
  assert (Hold : match mapGet end1 m with
                 | Some es => hd_error (filter (fun e => includes e (snd (vertices edge))) es)
                 | None => None
                 end = hd_error (filter (fun e => includes e (snd (vertices edge))) old)).
  { unfold old. destruct (mapGet end1 m); reflexivity. }
  rewrite Hold. rewrite !filter_app. cbn [filter]. rewrite Hinc.
  destruct (filter (fun e => includes e (snd (vertices edge))) old) as [|f fs] eqn:Hf.
  - exists edge. cbn [app hd_error]. repeat split. assumption.
  - exists f. cbn [app hd_error]. repeat split; [|discriminate].
    assert (Hin : In f (filter (fun e => includes e (snd (vertices edge))) old))
      by (rewrite Hf; now left).
    now apply filter_In in Hin.
Qed.

End UndirectedGraphFacts.

(** ** Linking a node and taking it out again; where rebalancing starts *)

Section LinkThenSplice.

Context {V : Type}.

Implicit Types (n m l r rt newNode : TreeMultimapNode V) (t : TreeMultimap V) (p q : Path).

(** X15: a node without children that [_addTo] has just hung under a
    parent is taken out again by the structural branch of [delete] run on
    its position: the tree is the one before the node was linked. *)
Theorem spliceOut_undoes_addTo newNode p t :
  is_present newNode = true ->
  left_of newNode = Absent -> right_of newNode = Absent ->
  snd (_addTo newNode (Some p) t) <> Absent ->
  let s := match left_of (subtree p (root t)) with
           | Absent => LEFT
           | Node _ _ _ _ _ _ => RIGHT
           end in
  subtree (p ++ [s]) (root (fst (_addTo newNode (Some p) t))) = newNode /\
  fst (fst (spliceOut (p ++ [s]) (root (fst (_addTo newNode (Some p) t))))) = root t.
Proof.
  intros Hpres Hl Hr Hlinked. unfold _addTo in *.
  destruct (subtree p (root t)) as [|pl pk pv pc ph pr] eqn:Hsub;
    [now elim Hlinked|].
  assert (Hfree : forall s0 : Side,
            match s0 with LEFT => pl | RIGHT => pr end = Absent ->
            subtree (p ++ [s0]) (update_at p (setChild s0 newNode) (root t)) = newNode /\
            fst (fst (spliceOut (p ++ [s0])
                        (update_at p (setChild s0 newNode) (root t)))) = root t).
  { intros s0 Hs0.
    assert (Hslot : subtree (p ++ [s0]) (root t) = Absent).
    { rewrite subtree_app, Hsub. destruct s0; cbn [subtree]; assumption. }
    assert (Hnew : subtree (p ++ [s0]) (update_at p (setChild s0 newNode) (root t))
                   = newNode).
    { rewrite subtree_app, subtree_update_at by now rewrite Hsub.
      rewrite Hsub. destruct s0; reflexivity. }
    split; [exact Hnew|].
    unfold spliceOut. rewrite Hnew, Hl, parentOf_snoc. cbn [fst].
    rewrite Hr, !update_at_setChild, update_at_twice.
    apply update_at_same. now rewrite Hslot. }
  destruct pl as [|pll plk plv plc plh plr]; cbn [left_of].
  - rewrite Hpres. cbn [fst root]. now apply (Hfree LEFT).
  - destruct pr as [|prl prk prv prc prh prr]; [|now elim Hlinked].
    rewrite Hpres. cbn [fst root]. now apply (Hfree RIGHT).
Qed.

(** X16: the node that [delete] hands to the rebalancing walk as
    [needBalanced] is the parent of the slot that lost its node.  Without
    a left child that is the parent of the node found (none for the root);
    with a left child it is the node found or one of its descendants, so
    the node found, whose height field the swap overwrote, lies on the way
    from [needBalanced] up to the root. *)
Theorem spliceOut_needBalanced p rt :
  match left_of (subtree p rt) with
  | Absent =>
      (p = [] /\ snd (spliceOut p rt) = None) \/
      (exists pp s, p = pp ++ [s] /\ snd (spliceOut p rt) = Some pp)
  | Node _ _ _ _ _ _ as cl =>
      exists below s,
        snd (spliceOut p rt) = Some (p ++ below) /\
        p ++ LEFT :: getRightMost cl = (p ++ below) ++ [s]
  end.
Proof.
  unfold spliceOut. cbv zeta.
  destruct (left_of (subtree p rt)) as [|cll clk clv clc clh clr].
  - destruct p as [|s0 p0].
    + left. split; reflexivity.
    + right. destruct (@exists_last _ (s0 :: p0)) as (pp & s & Hps);
        [discriminate|].
      exists pp, s. split; [assumption|].
      rewrite Hps, parentOf_snoc. reflexivity.
  - set (cl := Node cll clk clv clc clh clr).
    destruct (@exists_last _ (LEFT :: getRightMost cl)) as (below & s & Hb);
      [discriminate|].
    exists below, s. rewrite Hb, app_assoc, parentOf_snoc.
    split; reflexivity.
Qed.

End LinkThenSplice.

(** ** The further properties at work on sample inputs *)

Lemma threeVertices_identity : decidesIdentity threeVertices.
Proof. intros a b. apply Z.eqb_eq. Qed.



Lemma spliceOut_takes_one_payload_witness :
  node_number (fst (fst (spliceOut [] (root smallTree)))) = node_number (root smallTree) - 1.
Proof.
  destruct (@spliceOut_takes_one_payload Z [] (root smallTree)) as [_ H].
  - reflexivity.
  - right. left. vm_compute. discriminate.
  - exact H.
Defined.

Lemma spliceOut_keeps_order_witness :
  inOrderIncreasing (fst (fst (spliceOut [] (root smallTree)))).
Proof.
  destruct (@spliceOut_keeps_order Z [] (root smallTree)) as [H _].
  - reflexivity.
  - exact smallTree_increasing.
  - exact H.
Defined.


(** A node with key 0 hung to the left of the leaf 1 of [smallTree] and
    taken out again. *)
Lemma spliceOut_undoes_addTo_witness :
  subtree [LEFT; LEFT]
    (root (fst (_addTo (createNode 0 None 2) (Some [LEFT]) smallTree)))
  = createNode 0 None 2 /\
  fst (fst (spliceOut [LEFT; LEFT]
              (root (fst (_addTo (createNode 0 None 2) (Some [LEFT]) smallTree)))))
  = root smallTree.
Proof.
  apply (@spliceOut_undoes_addTo Z (createNode 0 None 2) [LEFT] smallTree).
  - reflexivity.
  - reflexivity.
  - reflexivity.
  - discriminate.
Defined.


Lemma perfectlyBalance_depends_on_content_witness :
  perfectlyBalance RECURSIVE smallTree = perfectlyBalance ITERATIVE chainTree.
Proof.
  apply (@perfectlyBalance_depends_on_content Z RECURSIVE ITERATIVE smallTree chainTree).
  - exact smallTree_present.
  - reflexivity.
Defined.

Lemma addEdge_degrees_witness :
  degreeOf 1 (fst (addEdge edge12 noEdges)) = 1.
Proof.
  destruct (@addEdge_degrees threeVertices unit edge12 noEdges 1 2
              threeVertices_identity eq_refl eq_refl 1 1 eq_refl) as [_ H].
  exact H.
Defined.

Lemma getEdge_after_addEdge_witness :
  exists found,
    getEdge (Some 1) (Some 2)
            (fst (addEdge edge12 noEdges)) = Some found.
Proof.
  destruct (@getEdge_after_addEdge threeVertices unit edge12 noEdges 1 2
              threeVertices_identity eq_refl eq_refl eq_refl) as (found & H & _).
  exists found. exact H.
Defined.
